(** * drug-check: availability polling and notification fan-out

    A shallow embedding of [database.ts] (the subscriber registry on SQLite)
    and of [index.ts] (the availability client, the run orchestrator, the
    retry timer, the notification fan-out and the bot's commands), with the
    properties of the specification stated and proved over it.

    The registry is a finite map from [chat_id] to rows.  A function of
    [index.ts] is a program over the module's variables and the registry,
    with exceptions, which is suspended at each [await]; it is run against
    an environment that answers its requests and stands for the other tasks
    of the event loop.  The logger is kept as the sequence of levels logged,
    and a message as its variable parts.  The start-up code
    ([validateConfig], the cron registration) is not part of the model. *)

From Stdlib Require Import ZArith String Ascii List Bool Lia.
From stdpp Require Import base option list sorting gmap strings pretty.

Local Open Scope string_scope.
Local Open Scope list_scope.
Local Open Scope Z_scope.

(** ** JavaScript values

    The payloads that reach the program are parsed JSON.  Numbers are kept as
    integers: the program only ever tests them for truthiness. *)

#[warnings="-register-all"]
Inductive JsValue : Type :=
| JUndefined
| JNull
| JBool (b : bool)
| JNum (n : Z)
| JStr (s : string)
| JArr (items : list JsValue)
| JObj (fields : list (string * JsValue)).

(** [ToBoolean]: what [if (v)] and [v && ...] test. *)
Definition truthy (v : JsValue) : bool :=
  match v with
  | JUndefined | JNull => false
  | JBool b => b
  | JNum n => negb (n =? 0)
  | JStr s => negb (String.eqb s "")
  | JArr _ | JObj _ => true
  end.

Fixpoint assoc (name : string) (fields : list (string * JsValue)) : JsValue :=
  match fields with
  | [] => JUndefined
  | (k, v) :: rest => if String.eqb k name then v else assoc name rest
  end.

(** [v.name] for the property names the program reads ([success], [result],
    [message], [storeName], ...): own properties of a parsed object, and
    [undefined] on any other non-nullish value.  [None] is the [TypeError]
    of reading a property of [null] or [undefined]. *)
Definition member (v : JsValue) (name : string) : option JsValue :=
  match v with
  | JUndefined | JNull => None
  | JObj fields => Some (assoc name fields)
  | _ => Some JUndefined
  end.

(** [v === false] *)
Definition is_false (v : JsValue) : bool :=
  match v with JBool false => true | _ => false end.

Definition join (sep : string) (parts : list string) : string :=
  match parts with
  | [] => ""
  | p :: rest => fold_left (fun acc q => (acc +:+ sep +:+ q)) rest p
  end.

(** [String(v)], as a template literal does it. *)
Fixpoint ToString (v : JsValue) : string :=
  match v with
  | JUndefined => "undefined"
  | JNull => "null"
  | JBool true => "true"
  | JBool false => "false"
  | JNum n => pretty n
  | JStr s => s
  | JArr items =>
      join "," (map (fun x => match x with
                              | JUndefined | JNull => ""
                              | _ => ToString x
                              end) items)
  | JObj _ => "[object Object]"
  end.

(** [s.includes(sub)] *)
Definition includes (s sub : string) : bool :=
  match String.index 0 sub s with Some _ => true | None => false end.

(** [x || null] and [x || undefined] on an optional string: the empty string
    is falsy, so it goes the way of a missing value. *)
Definition or_missing (x : option string) : option string :=
  match x with
  | Some s => if String.eqb s "" then None else Some s
  | None => None
  end.

(** ** database.ts: the subscriber registry *)

Record Subscriber : Type := {
  chatId : Z;
  username : option string;
  firstName : option string;
  lastName : option string
}.

(** A row of [subscribers], keyed by [chat_id INTEGER PRIMARY KEY].  The
    column [subscribed_at] (and [timestamp] of the history table) take
    SQLite's clock by default and are read by no statement; they are left
    out. *)
Module DbRow.
Record t : Type := {
  username : option string;
  first_name : option string;
  last_name : option string;
  is_active : Z
}.
End DbRow.

Record Database : Type := {
  subscribers : gmap Z DbRow.t;
  subscription_history : list (Z * string)
}.

(** A scan of [subscribers] yields its rows in rowid order, and the rowid of
    a table with an [INTEGER PRIMARY KEY] is that key. *)
Definition rowid_le (a b : Z * DbRow.t) : Prop := a.1 ≤ b.1.

#[global] Instance rowid_le_dec (a b : Z * DbRow.t) : Decision (rowid_le a b) :=
  Z_le_dec a.1 b.1.

Definition scan (d : Database) : list (Z * DbRow.t) :=
  merge_sort rowid_le (map_to_list (subscribers d)).

Module statements.

(** [INSERT OR REPLACE INTO subscribers (...) VALUES (@chatId, @username,
    @firstName, @lastName, 1)] *)
Definition addSubscriber (chat_id : Z) (u f l : option string)
    (d : Database) : Database :=
  {| subscribers :=
       <[chat_id := {| DbRow.username := u; DbRow.first_name := f;
                       DbRow.last_name := l; DbRow.is_active := 1 |}]>
         (subscribers d);
     subscription_history := subscription_history d |}.

(** [UPDATE subscribers SET is_active = 0 WHERE chat_id = ?].  [changes] is
    SQLite's count of the rows the statement updated: every row its WHERE
    clause selects, whether or not the stored value differs. *)
Definition deactivateSubscriber (chat_id : Z) (d : Database)
    : Database * Z :=
  ({| subscribers :=
        alter (fun r => {| DbRow.username := DbRow.username r;
                           DbRow.first_name := DbRow.first_name r;
                           DbRow.last_name := DbRow.last_name r;
                           DbRow.is_active := 0 |}) chat_id (subscribers d);
      subscription_history := subscription_history d |},
   match subscribers d !! chat_id with Some _ => 1 | None => 0 end).

(** [SELECT chat_id, username, first_name, last_name FROM subscribers
    WHERE is_active = 1] *)
Definition getActiveSubscribers (d : Database) : list (Z * DbRow.t) :=
  filter (fun kr => DbRow.is_active kr.2 = 1) (scan d).

(** [SELECT is_active FROM subscribers WHERE chat_id = ?] *)
Definition checkSubscriber (chat_id : Z) (d : Database) : option Z :=
  DbRow.is_active <$> subscribers d !! chat_id.

(** [INSERT INTO subscription_history (chat_id, action) VALUES (?, ?)] *)
Definition logAction (chat_id : Z) (action : string) (d : Database)
    : Database :=
  {| subscribers := subscribers d;
     subscription_history := subscription_history d ++ [(chat_id, action)] |}.

End statements.

Definition addSubscriber (subscriber : Subscriber) (d : Database) : Database :=
  let d := statements.addSubscriber (chatId subscriber)
             (or_missing (username subscriber))
             (or_missing (firstName subscriber))
             (or_missing (lastName subscriber)) d in
  statements.logAction (chatId subscriber) "subscribe" d.

Definition removeSubscriber (chatId : Z) (d : Database) : Database * bool :=
  let '(d', changes) := statements.deactivateSubscriber chatId d in
  if 0 <? changes
  then (statements.logAction chatId "unsubscribe" d', true)
  else (d', false).

Definition getActiveSubscribers (d : Database) : list Subscriber :=
  map (fun row : Z * DbRow.t =>
         {| chatId := row.1;
            username := or_missing (DbRow.username row.2);
            firstName := or_missing (DbRow.first_name row.2);
            lastName := or_missing (DbRow.last_name row.2) |})
      (statements.getActiveSubscribers d).

(** [result?.is_active === 1] *)
Definition isSubscribed (chatId : Z) (d : Database) : bool :=
  match statements.checkSubscriber chatId d with
  | Some a => a =? 1
  | None => false
  end.

Record Statistics : Type := {
  active_count : nat;
  inactive_count : nat;
  total_count : nat
}.

Definition getStatistics (d : Database) : Statistics :=
  let rows := scan d in
  {| active_count :=
       length (filter (fun kr : Z * DbRow.t => DbRow.is_active kr.2 = 1) rows);
     inactive_count :=
       length (filter (fun kr : Z * DbRow.t => DbRow.is_active kr.2 = 0) rows);
     total_count := length rows |}.

(** ** index.ts: strings of the configuration *)

(** [s.split(sep)] for a one-character separator. *)
Fixpoint split (sep : ascii) (s : string) : list string :=
  match s with
  | EmptyString => [""]
  | String c s' =>
      let parts := split sep s' in
      if Ascii.eqb c sep then "" :: parts
      else match parts with
           | p :: ps => String c p :: ps
           | [] => [String c ""]
           end
  end.

Definition utf8 (bytes : list nat) : string :=
  fold_right (fun b s => String (ascii_of_nat b) s) "" bytes.

(** ECMAScript's WhiteSpace and LineTerminator code points, UTF-8 encoded:
    TAB, LF, VT, FF, CR, SP, U+00A0, U+1680, U+2000..U+200A, U+2028, U+2029,
    U+202F, U+205F, U+3000, U+FEFF. *)
Definition whitespace : list string :=
  map utf8
    [ [9]; [10]; [11]; [12]; [13]; [32]; [194; 160]; [225; 154; 128];
      [226; 128; 128]; [226; 128; 129]; [226; 128; 130]; [226; 128; 131];
      [226; 128; 132]; [226; 128; 133]; [226; 128; 134]; [226; 128; 135];
      [226; 128; 136]; [226; 128; 137]; [226; 128; 138]; [226; 128; 168];
      [226; 128; 169]; [226; 128; 175]; [226; 129; 159]; [227; 128; 128];
      [239; 187; 191] ]%nat.

Fixpoint strip (fuel : nat) (spaces : list string) (s : string) : string :=
  match fuel with
  | O => s
  | S fuel' =>
      match find (fun p => String.prefix p s) spaces with
      | Some p =>
          strip fuel' spaces
            (String.substring (String.length p) (String.length s) s)
      | None => s
      end
  end.

(** [s.trim()] *)
Definition trim (s : string) : string :=
  let s1 := strip (String.length s) whitespace s in
  String.rev (strip (String.length s1) (map String.rev whitespace)
                (String.rev s1)).

Definition default_drug : string := "Пентаса".

(** [(process.env.DRUGS_TO_CHECK || 'Пентаса').split(',').map(d => d.trim())] *)
Definition configured_drugs (DRUGS_TO_CHECK : option string) : list string :=
  map trim (split "," (default default_drug (or_missing DRUGS_TO_CHECK))).

(** ** index.ts: data *)

(** A thrown value, by what the handlers look at. *)
Module Err.
Record t : Type := {
  instanceof_Error : bool;
  message : string;
  response : option (Z * JsValue);
  request : bool
}.
End Err.

(** [new Error(message)]; the runtime's [TypeError]s are of this shape too. *)
Definition new_Error (message : string) : Err.t :=
  {| Err.instanceof_Error := true; Err.message := message;
     Err.response := None; Err.request := false |}.

Definition TypeError : Err.t := new_Error "TypeError".

Record DrugCheckResult : Type := {
  isAvailable : bool;
  pharmacyCount : option nat;
  pharmacies : option (list JsValue)
}.

(** One entry of the list of pharmacies in a message; [storeWorkingTime] is
    already cut to its first four words. *)
Record Entry : Type := {
  storeName : JsValue;
  storeAddress : JsValue;
  storeDistrict : JsValue;
  storeWorkingTime : string;
  drugName : JsValue
}.

(** The texts the bot sends, by their variable parts. *)
Inductive Message : Type :=
| InStock (drug : string) (count : nat) (entries : list Entry)
| OutOfStock (drug : string)
| Welcome (drugs : list string)
| Goodbye
| WasNotSubscribed
| StatusSubscribed (drugs : list string)
| StatusNotSubscribed.

(** The promise of [axios.get]: with the default [validateStatus], a status
    outside 2xx, a timeout and a network error all reject. *)
Inductive AxiosOutcome : Type :=
| Fulfilled (status : Z) (data : JsValue)
| Rejected (error : Err.t).

(** The promise of [bot.sendMessage]. *)
Inductive SendOutcome : Type :=
| Sent
| SendFailed (error : Err.t).

(** Calls that leave the engine: the availability source, the message
    transport and the registry. *)
Inductive Event : Type :=
| EvSearch (nom : string) (reply : AxiosOutcome)
| EvSendMessage (chat : Z) (message : Message) (reply : SendOutcome)
| EvGetActiveSubscribers (rows : list Subscriber)
| EvRemoveSubscriber (chat : Z) (changed : bool)
| EvAddSubscriber (subscriber : Subscriber)
| EvIsSubscribed (chat : Z) (active : bool).

Inductive Level : Type := lvl_debug | lvl_info | lvl_warn | lvl_error.

(** The module's variables, the registry, and the runtime's table of pending
    [setTimeout] handles.  The only callback ever registered is the retry
    wave, so a handle stands for it.  The logger is recorded by the level of
    each call. *)
Record World : Type := {
  db : Database;
  DRUGS_TO_CHECK : option string;
  apiErrorDrugs : list string;
  retryTimer : option nat;
  isChecking : bool;
  timers : list nat;
  nextTimer : nat;
  log : list Level
}.

Definition set_db (f : Database → Database) (w : World) : World :=
  {| db := f (db w); DRUGS_TO_CHECK := DRUGS_TO_CHECK w;
     apiErrorDrugs := apiErrorDrugs w; retryTimer := retryTimer w;
     isChecking := isChecking w; timers := timers w;
     nextTimer := nextTimer w; log := log w |}.

Definition set_apiErrorDrugs (f : list string → list string) (w : World)
    : World :=
  {| db := db w; DRUGS_TO_CHECK := DRUGS_TO_CHECK w;
     apiErrorDrugs := f (apiErrorDrugs w); retryTimer := retryTimer w;
     isChecking := isChecking w; timers := timers w;
     nextTimer := nextTimer w; log := log w |}.

Definition set_retryTimer (t : option nat) (w : World) : World :=
  {| db := db w; DRUGS_TO_CHECK := DRUGS_TO_CHECK w;
     apiErrorDrugs := apiErrorDrugs w; retryTimer := t;
     isChecking := isChecking w; timers := timers w;
     nextTimer := nextTimer w; log := log w |}.

Definition set_isChecking (b : bool) (w : World) : World :=
  {| db := db w; DRUGS_TO_CHECK := DRUGS_TO_CHECK w;
     apiErrorDrugs := apiErrorDrugs w; retryTimer := retryTimer w;
     isChecking := b; timers := timers w;
     nextTimer := nextTimer w; log := log w |}.

Definition set_timers (f : list nat → list nat) (w : World) : World :=
  {| db := db w; DRUGS_TO_CHECK := DRUGS_TO_CHECK w;
     apiErrorDrugs := apiErrorDrugs w; retryTimer := retryTimer w;
     isChecking := isChecking w; timers := f (timers w);
     nextTimer := nextTimer w; log := log w |}.

(** The runtime registering a new pending handle. *)
Definition new_timer (w : World) : World :=
  {| db := db w; DRUGS_TO_CHECK := DRUGS_TO_CHECK w;
     apiErrorDrugs := apiErrorDrugs w; retryTimer := retryTimer w;
     isChecking := isChecking w; timers := timers w ++ [nextTimer w];
     nextTimer := S (nextTimer w); log := log w |}.

Definition add_log (l : Level) (w : World) : World :=
  {| db := db w; DRUGS_TO_CHECK := DRUGS_TO_CHECK w;
     apiErrorDrugs := apiErrorDrugs w; retryTimer := retryTimer w;
     isChecking := isChecking w; timers := timers w;
     nextTimer := nextTimer w; log := log w ++ [l] |}.

(** [Set.prototype.add]: a set keeps insertion order, which [Array.from]
    shows. *)
Definition Set_add (x : string) (s : list string) : list string :=
  if decide (x ∈ s) then s else s ++ [x].

(** ** Asynchronous programs

    A function of [index.ts] is a tree of its steps: reads and updates of the
    world, calls that are recorded, the two awaited requests, whose reply
    the continuation receives, and [Yield], the resumption of an [await] on a
    later tick.  [Throw] is a raised exception. *)

Inductive Prog (A : Type) : Type :=
| Ret (a : A)
| Throw (e : Err.t)
| Get (k : World → Prog A)
| Modify (f : World → World) (k : Prog A)
| Call (ev : Event) (k : Prog A)
| Yield (k : Prog A)
| AwaitSearch (nom : string) (k : AxiosOutcome → Prog A)
| AwaitSendMessage (chat : Z) (message : Message) (k : SendOutcome → Prog A).

Arguments Ret {A} a.
Arguments Throw {A} e.
Arguments Get {A} k.
Arguments Modify {A} f k.
Arguments Call {A} ev k.
Arguments Yield {A} k.
Arguments AwaitSearch {A} nom k.
Arguments AwaitSendMessage {A} chat message k.

Fixpoint bind {A B : Type} (p : Prog A) (f : A → Prog B) : Prog B :=
  match p with
  | Ret a => f a
  | Throw e => Throw e
  | Get k => Get (fun w => bind (k w) f)
  | Modify g k => Modify g (bind k f)
  | Call ev k => Call ev (bind k f)
  | Yield k => Yield (bind k f)
  | AwaitSearch nom k => AwaitSearch nom (fun r => bind (k r) f)
  | AwaitSendMessage c m k => AwaitSendMessage c m (fun r => bind (k r) f)
  end.

#[global] Instance Prog_ret : MRet Prog := @Ret.
#[global] Instance Prog_bind : MBind Prog := fun A B f p => bind p f.

(** [try { p } catch (error) { handler error }] *)
Fixpoint try_catch {A : Type} (p : Prog A) (handler : Err.t → Prog A)
    : Prog A :=
  match p with
  | Ret a => Ret a
  | Throw e => handler e
  | Get k => Get (fun w => try_catch (k w) handler)
  | Modify g k => Modify g (try_catch k handler)
  | Call ev k => Call ev (try_catch k handler)
  | Yield k => Yield (try_catch k handler)
  | AwaitSearch nom k => AwaitSearch nom (fun r => try_catch (k r) handler)
  | AwaitSendMessage c m k =>
      AwaitSendMessage c m (fun r => try_catch (k r) handler)
  end.

(** [try { p } finally { cleanup }] *)
Fixpoint try_finally {A : Type} (p : Prog A) (cleanup : Prog unit) : Prog A :=
  match p with
  | Ret a => cleanup ;; Ret a
  | Throw e => cleanup ;; Throw e
  | Get k => Get (fun w => try_finally (k w) cleanup)
  | Modify g k => Modify g (try_finally k cleanup)
  | Call ev k => Call ev (try_finally k cleanup)
  | Yield k => Yield (try_finally k cleanup)
  | AwaitSearch nom k => AwaitSearch nom (fun r => try_finally (k r) cleanup)
  | AwaitSendMessage c m k =>
      AwaitSendMessage c m (fun r => try_finally (k r) cleanup)
  end.

(** [await f(...)] for an async function [f] of the program: when [f] has
    returned or thrown, the caller goes on in a later tick. *)
Definition await {A : Type} (p : Prog A) : Prog A :=
  try_finally p (Yield (Ret tt)).

Definition get : Prog World := Get Ret.
Definition modify (f : World → World) : Prog unit := Modify f (Ret tt).
Definition logger (l : Level) : Prog unit := modify (add_log l).
Definition logger_debug : Prog unit := logger lvl_debug.
Definition logger_info : Prog unit := logger lvl_info.
Definition logger_warn : Prog unit := logger lvl_warn.
Definition logger_error : Prog unit := logger lvl_error.

(** [array.forEach(body)] *)
Fixpoint forEach {X : Type} (body : X → Prog unit) (array : list X)
    : Prog unit :=
  match array with
  | [] => Ret tt
  | x :: rest => body x ;; forEach body rest
  end.

(** [await axios.get(url, {params: {nom: drugName.toLowerCase(), isLgot:
    true}, headers, timeout: 30000})].  The request is named by [drugName];
    the case folding is the built-in's. *)
Definition axios_get (drugName : string) : Prog (Z * JsValue) :=
  AwaitSearch drugName (fun r =>
    match r with
    | Fulfilled status data => Ret (status, data)
    | Rejected e => Throw e
    end).

(** [await bot.sendMessage(chatId, message, {...})] *)
Definition bot_sendMessage (chat : Z) (message : Message) : Prog unit :=
  AwaitSendMessage chat message (fun r =>
    match r with
    | Sent => Ret tt
    | SendFailed e => Throw e
    end).

(** The registry, called on the world's database. *)
Definition db_addSubscriber (subscriber : Subscriber) : Prog unit :=
  Modify (set_db (addSubscriber subscriber))
    (Call (EvAddSubscriber subscriber) (Ret tt)).

Definition db_removeSubscriber (chat : Z) : Prog bool :=
  Get (fun w =>
    let changed := (removeSubscriber chat (db w)).2 in
    Modify (set_db (fun d => (removeSubscriber chat d).1))
      (Call (EvRemoveSubscriber chat changed) (Ret changed))).

Definition db_getActiveSubscribers : Prog (list Subscriber) :=
  Get (fun w =>
    let rows := getActiveSubscribers (db w) in
    Call (EvGetActiveSubscribers rows) (Ret rows)).

Definition db_isSubscribed (chat : Z) : Prog bool :=
  Get (fun w =>
    let active := isSubscribed chat (db w) in
    Call (EvIsSubscribed chat active) (Ret active)).

(** ** index.ts: the availability client *)

(** [v.name] where [v] is known to be truthy. *)
Definition prop (v : JsValue) (name : string) : JsValue :=
  default JUndefined (member v name).

Definition checkDrug (drugName : string) : Prog DrugCheckResult :=
  logger_info ;;
  try_catch
    ('(status, data) ← axios_get drugName;
     logger_info ;;
     (if truthy data && is_false (prop data "success")
      then
        logger_error ;;
        logger_error ;;
        Throw (new_Error ("API Error: " +:+ ToString (prop data "message")))
      else Ret tt) ;;
     if truthy data && truthy (prop data "success")
        && truthy (prop data "result")
     then
       match prop data "result" with
       | JArr pharmacies =>
           let isAvailable := (0 <? length pharmacies)%nat in
           (if isAvailable
            then
              logger_info ;;
              forEach (fun pharmacy =>
                         match member pharmacy "storeName" with
                         | Some _ => logger_info
                         | None => Throw TypeError
                         end)
                      (firstn 3 pharmacies)
            else logger_info) ;;
           Ret {| isAvailable := isAvailable;
                  pharmacyCount := Some (length pharmacies);
                  pharmacies := Some (firstn 3 pharmacies) |}
       | _ =>
           (* a truthy [result] that is no array: one line is logged, found
              or not, and then [slice] or [forEach] is not a function *)
           logger_info ;;
           Throw TypeError
       end
     else
       logger_error ;;
       Throw (new_Error "Неожиданный формат ответа от API"))
    (fun error =>
       (if Err.response error is Some _ then logger_error ;; logger_error
        else if Err.request error then logger_error
        else logger_error) ;;
       Throw error).

(** ** index.ts: the notification fan-out *)

(** [s.split(' ').slice(0, 4).join(' ')] *)
Definition first_four_words (s : string) : string :=
  join " " (firstn 4 (split " " s)).

(** The body of the [forEach] that appends a pharmacy to the message.  It
    raises a [TypeError] when [pharmacy] is [null] or [undefined], and when
    [pharmacy.storeWorkingTime] is no string and so has no [split]. *)
Definition format_pharmacy (pharmacy : JsValue) : Prog Entry :=
  match member pharmacy "storeName" with
  | None => Throw TypeError
  | Some name =>
      match prop pharmacy "storeWorkingTime" with
      | JStr hours =>
          Ret {| storeName := name;
                 storeAddress := prop pharmacy "storeAddress";
                 storeDistrict := prop pharmacy "storeDistrict";
                 storeWorkingTime := first_four_words hours;
                 drugName := prop pharmacy "drugName" |}
      | _ => Throw TypeError
      end
  end.

Fixpoint format_pharmacies (pharmacies : list JsValue) : Prog (list Entry) :=
  match pharmacies with
  | [] => Ret []
  | pharmacy :: rest =>
      entry ← format_pharmacy pharmacy;
      entries ← format_pharmacies rest;
      Ret (entry :: entries)
  end.

(** The message of [sendNotificationToSubscribers], built before the first
    delivery. *)
Definition build_message (drugName : string) (result : DrugCheckResult)
    : Prog Message :=
  match isAvailable result, pharmacyCount result, pharmacies result with
  | true, Some (S n), Some pharmacies =>
      entries ← format_pharmacies pharmacies;
      Ret (InStock drugName (S n) entries)
  | _, _, _ => Ret (OutOfStock drugName)
  end.

(** [error instanceof Error && error.message.includes('bot was blocked')] *)
Definition bot_was_blocked (error : Err.t) : bool :=
  Err.instanceof_Error error && includes (Err.message error) "bot was blocked".

(** The [for (const subscriber of subscribers)] loop.  [successCount] and
    [errorCount] only feed the closing log line. *)
Fixpoint deliver (message : Message) (subscribers : list Subscriber)
    : Prog unit :=
  match subscribers with
  | [] => Ret tt
  | subscriber :: rest =>
      try_catch
        (bot_sendMessage (chatId subscriber) message ;;
         logger_info)
        (fun error =>
           logger_error ;;
           if bot_was_blocked error
           then
             db_removeSubscriber (chatId subscriber) ;;
             logger_info
           else Ret tt) ;;
      deliver message rest
  end.

Definition sendNotificationToSubscribers (drugName : string)
    (result : DrugCheckResult) : Prog unit :=
  subscribers ← db_getActiveSubscribers;
  logger_info ;;
  if (length subscribers =? 0)%nat
  then logger_info
  else
    message ← build_message drugName result;
    deliver message subscribers ;;
    logger_info.

(** The body of the [try] block, which the loop of a run and the loop of
    the retry wave have in common. *)
Definition check_and_notify (drug : string) : Prog unit :=
  result ← await (checkDrug drug);
  logger_info ;;
  await (sendNotificationToSubscribers drug result) ;;
  logger_info.

(** ** index.ts: the retry timer *)

(** [setTimeout(callback, 60000)]: a fresh handle, pending. *)
Definition setTimeout : Prog nat :=
  Get (fun w => Modify new_timer (Ret (nextTimer w))).

(** [clearTimeout(t)]; nothing happens when [t] is no longer pending. *)
Definition clearTimeout (t : nat) : Prog unit :=
  modify (set_timers (filter (fun t' => t' ≠ t))).

(** The loop of the timer's callback. *)
Fixpoint retry_each (drugsToRetry : list string) : Prog unit :=
  match drugsToRetry with
  | [] => Ret tt
  | drug :: rest =>
      try_catch
        (check_and_notify drug)
        (fun error =>
           logger_error ;;
           logger_warn) ;;
      retry_each rest
  end.

(** The callback given to [setTimeout] in [scheduleRetryForErrors]. *)
Definition retry_callback : Prog unit :=
  w ← get;
  if (0 <? length (apiErrorDrugs w))%nat
  then
    logger_info ;;
    let drugsToRetry := apiErrorDrugs w in
    modify (set_apiErrorDrugs (fun _ => [])) ;;
    retry_each drugsToRetry
  else Ret tt.

Definition scheduleRetryForErrors : Prog unit :=
  w ← get;
  if (0 <? length (apiErrorDrugs w))%nat
  then
    (if retryTimer w is Some t then clearTimeout t else Ret tt) ;;
    logger_info ;;
    t ← setTimeout;
    modify (set_retryTimer (Some t))
  else Ret tt.

(** ** index.ts: the run orchestrator *)

(** The [for] loop over the configured drugs. *)
Fixpoint check_each (drugs : list string) : Prog unit :=
  match drugs with
  | [] => Ret tt
  | drug :: rest =>
      try_catch
        (check_and_notify drug)
        (fun error =>
           logger_error ;;
           logger_warn ;;
           modify (set_apiErrorDrugs (Set_add drug))) ;;
      check_each rest
  end.

(** The [try] block of [checkAllDrugs]: one pass over the drugs. *)
Definition run_pass : Prog unit :=
  w ← get;
  let drugs := configured_drugs (DRUGS_TO_CHECK w) in
  activeSubscribers ← db_getActiveSubscribers;
  logger_info ;;
  logger_info ;;
  logger_info ;;
  check_each drugs ;;
  logger_info ;;
  scheduleRetryForErrors.

Definition checkAllDrugs : Prog unit :=
  w ← get;
  if isChecking w
  then logger_warn
  else
    modify (set_isChecking true) ;;
    try_finally run_pass (modify (set_isChecking false)).

(** The runtime running the callback of handle [t] when its delay is over. *)
Definition timer_fires (t : nat) : Prog unit :=
  w ← get;
  if decide (t ∈ timers w)
  then
    modify (set_timers (filter (fun t' => t' ≠ t))) ;;
    retry_callback
  else Ret tt.

(** ** index.ts: the bot's commands *)

Module User.
Record t : Type := {
  id : Z;
  username : option string;
  first_name : string;
  last_name : option string
}.
End User.

(** An incoming update: [msg.chat.id] and [msg.from]. *)
Record Update : Type := {
  chat : Z;
  from : option User.t
}.

(** [bot.on('message', ...)] *)
Definition on_message (msg : Update) : Prog unit := logger_debug.

(** [bot.onText(/\/start/, ...)] *)
Definition on_start (msg : Update) : Prog unit :=
  let chatId := chat msg in
  logger_info ;;
  match from msg with
  | None => Ret tt
  | Some user =>
      let subscriber :=
        {| chatId := chatId;
           username := User.username user;
           firstName := Some (User.first_name user);
           lastName := User.last_name user |} in
      db_addSubscriber subscriber ;;
      logger_info ;;
      w ← get;
      bot_sendMessage chatId (Welcome (configured_drugs (DRUGS_TO_CHECK w))) ;;
      logger_info
  end.

(** [bot.onText(/\/stop/, ...)] *)
Definition on_stop (msg : Update) : Prog unit :=
  let chatId := chat msg in
  logger_info ;;
  wasSubscribed ← db_removeSubscriber chatId;
  if wasSubscribed : bool
  then
    logger_info ;;
    bot_sendMessage chatId Goodbye
  else
    logger_warn ;;
    bot_sendMessage chatId WasNotSubscribed.

(** [bot.onText(/\/status/, ...)] *)
Definition on_status (msg : Update) : Prog unit :=
  let chatId := chat msg in
  subscribed ← db_isSubscribed chatId;
  logger_info ;;
  if subscribed : bool
  then
    w ← get;
    bot_sendMessage chatId
      (StatusSubscribed (configured_drugs (DRUGS_TO_CHECK w)))
  else bot_sendMessage chatId StatusNotSubscribed.

(** What the event loop starts: a run (the cron job, the start-up call and
    [--check-now]), the callback of a timer, the handler of a message. *)
Inductive Trigger : Type :=
| RunRequested
| TimerElapsed (t : nat)
| MessageReceived (msg : Update)
| StartReceived (msg : Update)
| StopReceived (msg : Update)
| StatusReceived (msg : Update).

Definition task (trigger : Trigger) : Prog unit :=
  match trigger with
  | RunRequested => checkAllDrugs
  | TimerElapsed t => timer_fires t
  | MessageReceived msg => on_message msg
  | StartReceived msg => on_start msg
  | StopReceived msg => on_stop msg
  | StatusReceived msg => on_status msg
  end.

(** ** Running a program

    The environment answers the two requests, as it likes and knowing every
    call made so far, and says what the other tasks of the event loop did
    to the world while this one was suspended. *)

Record Env : Type := {
  source : list Event → string → AxiosOutcome;
  transport : list Event → Z → Message → SendOutcome;
  meanwhile : list Event → World → World
}.

Inductive Outcome (A : Type) : Type :=
| Returned (a : A)
| Thrown (e : Err.t).

Arguments Returned {A} a.
Arguments Thrown {A} e.

Fixpoint exec {A : Type} (env : Env) (p : Prog A) (w : World)
    (tr : list Event) : World * list Event * Outcome A :=
  match p with
  | Ret a => (w, tr, Returned a)
  | Throw e => (w, tr, Thrown e)
  | Get k => exec env (k w) w tr
  | Modify f k => exec env k (f w) tr
  | Call ev k => exec env k w (tr ++ [ev])
  | Yield k => exec env k (meanwhile env tr w) tr
  | AwaitSearch nom k =>
      let r := source env tr nom in
      let tr' := tr ++ [EvSearch nom r] in
      exec env (k r) (meanwhile env tr' w) tr'
  | AwaitSendMessage c m k =>
      let r := transport env tr c m in
      let tr' := tr ++ [EvSendMessage c m r] in
      exec env (k r) (meanwhile env tr' w) tr'
  end.

(** What a trace shows. *)
Definition searches (tr : list Event) : list string :=
  omap (fun ev => if ev is EvSearch nom _ then Some nom else None) tr.

Definition deliveries (tr : list Event) : list (Z * Message) :=
  omap (fun ev => if ev is EvSendMessage c m _ then Some (c, m) else None) tr.

Definition deactivations (tr : list Event) : list Z :=
  omap (fun ev => if ev is EvRemoveSubscriber c _ then Some c else None) tr.

Definition registry_reads (tr : list Event) : list (list Subscriber) :=
  omap (fun ev => if ev is EvGetActiveSubscribers rows then Some rows
                  else None) tr.

(** ** Notions the properties are stated with *)

(** [v == null]: [null] or [undefined]. *)
Definition nullish (v : JsValue) : bool :=
  match v with JUndefined | JNull => true | _ => false end.

(** The payload carries the explicit failure flag: [success === false]. *)
Definition explicit_failure (data : JsValue) : bool :=
  truthy data && is_false (prop data "success").

(** The list of pharmacies of a payload the client accepts: [data],
    [data.success] and [data.result] truthy, and [data.result] an array. *)
Definition match_list (data : JsValue) : option (list JsValue) :=
  if truthy data && truthy (prop data "success")
     && truthy (prop data "result")
  then match prop data "result" with
       | JArr pharmacies => Some pharmacies
       | _ => None
       end
  else None.

(** ** What a program does at each of its steps

    [respects R p]: every update of the world that [p] makes, wherever it
    has got to and whatever it has been answered, is within [R].
    [emits P p]: every call that [p] makes satisfies [P]. *)

Fixpoint respects {A : Type} (R : World → World → Prop) (p : Prog A) : Prop :=
  match p with
  | Ret _ | Throw _ => True
  | Get k => ∀ w, respects R (k w)
  | Modify f k => (∀ w, R w (f w)) ∧ respects R k
  | Call _ k => respects R k
  | Yield k => respects R k
  | AwaitSearch _ k => ∀ r, respects R (k r)
  | AwaitSendMessage _ _ k => ∀ r, respects R (k r)
  end.

Fixpoint emits {A : Type} (P : Event → Prop) (p : Prog A) : Prop :=
  match p with
  | Ret _ | Throw _ => True
  | Get k => ∀ w, emits P (k w)
  | Modify _ k => emits P k
  | Call ev k => P ev ∧ emits P k
  | Yield k => emits P k
  | AwaitSearch nom k => ∀ r, P (EvSearch nom r) ∧ emits P (k r)
  | AwaitSendMessage c m k => ∀ r, P (EvSendMessage c m r) ∧ emits P (k r)
  end.

(** The answers with which a query has failed: no answer (a timeout, a
    network error, a status outside 2xx); the explicit failure flag; a
    payload that is not the expected one; a list whose shown part holds
    [null]. *)
Inductive QueryFailed : AxiosOutcome → Prop :=
| no_answer e : QueryFailed (Rejected e)
| failure_flag status data :
    explicit_failure data = true → QueryFailed (Fulfilled status data)
| unexpected_payload status data :
    match_list data = None → QueryFailed (Fulfilled status data)
| broken_record status data matches :
    match_list data = Some matches →
    Exists (fun p => nullish p = true) (firstn 3 matches) →
    QueryFailed (Fulfilled status data).

(** The recipients whose delivery was answered by the permanent-failure
    signal. *)
Definition blocked (tr : list Event) : list Z :=
  omap (fun ev => match ev with
                  | EvSendMessage c _ (SendFailed e) =>
                      if bot_was_blocked e then Some c else None
                  | _ => None
                  end) tr.

(** The pharmacy can be shown in a message. *)
Definition presentable (pharmacy : JsValue) : bool :=
  negb (nullish pharmacy)
  && match prop pharmacy "storeWorkingTime" with
     | JStr _ => true
     | _ => false
     end.

(** [build_message] returns for this result. *)
Definition formattable (result : DrugCheckResult) : bool :=
  match isAvailable result, pharmacyCount result, pharmacies result with
  | true, Some (S _), Some pharmacies => forallb presentable pharmacies
  | _, _, _ => true
  end.

(** The engine's variables are untouched: only the registry and the log
    differ. *)
Definition same_engine (w w' : World) : Prop :=
  DRUGS_TO_CHECK w' = DRUGS_TO_CHECK w
  ∧ apiErrorDrugs w' = apiErrorDrugs w
  ∧ retryTimer w' = retryTimer w
  ∧ isChecking w' = isChecking w
  ∧ timers w' = timers w
  ∧ nextTimer w' = nextTimer w.

Definition same_registry (w w' : World) : Prop := db w' = db w.

Definition not_search (ev : Event) : Prop :=
  match ev with EvSearch _ _ => False | _ => True end.

(** The queries that were rejected. *)
Definition rejected_searches (tr : list Event) : list string :=
  omap (fun ev => if ev is EvSearch nom (Rejected _) then Some nom else None)
       tr.

(** The registry after [removeSubscriber] of each of [chats] in turn. *)
Definition deactivate_all (chats : list Z) (d : Database) : Database :=
  foldl (fun d c => (removeSubscriber c d).1) d chats.

(** What [addSubscriber] keeps of a subscriber. *)
Definition stored (s : Subscriber) : Subscriber :=
  {| chatId := chatId s;
     username := or_missing (username s);
     firstName := or_missing (firstName s);
     lastName := or_missing (lastName s) |}.

(** The retry wave's side of the failed set and the timer: nothing is added
    to the set, and no timer is scheduled, cancelled or stored. *)
Definition retry_is_over (w w' : World) : Prop :=
  (∀ drug, drug ∈ apiErrorDrugs w' → drug ∈ apiErrorDrugs w)
  ∧ retryTimer w' = retryTimer w
  ∧ timers w' = timers w
  ∧ nextTimer w' = nextTimer w.

(** Nothing leaves the failed set. *)
Definition failures_kept (w w' : World) : Prop :=
  ∀ drug, drug ∈ apiErrorDrugs w → drug ∈ apiErrorDrugs w'.

(** The run guard is as it was. *)
Definition guard_kept (w w' : World) : Prop := isChecking w' = isChecking w.

(** Handles come from [nextTimer], so those in use are below it. *)
Definition timers_fresh (w : World) : Prop :=
  (∀ t, retryTimer w = Some t → (t < nextTimer w)%nat)
  ∧ (∀ t, t ∈ timers w → (t < nextTimer w)%nat).

(** ** Scenarios *)

Module Scenario.

Definition subscriber (c : Z) : Subscriber :=
  {| chatId := c; username := None; firstName := Some "Ann";
     lastName := None |}.

Definition no_one : Database :=
  {| subscribers := ∅; subscription_history := [] |}.

Definition registry (chats : list Z) : Database :=
  foldl (fun d c => addSubscriber (subscriber c) d) no_one chats.

Definition world (drugs : string) (chats : list Z) : World :=
  {| db := registry chats; DRUGS_TO_CHECK := Some drugs;
     apiErrorDrugs := []; retryTimer := None; isChecking := false;
     timers := []; nextTimer := 0; log := [] |}.

Definition found (pharmacies : list JsValue) : JsValue :=
  JObj [("success", JBool true); ("result", JArr pharmacies)].

Definition refused : JsValue :=
  JObj [("success", JBool false); ("message", JStr "busy");
        ("errorCode", JNum 500); ("requestId", JStr "r-1")].

Definition pharmacy (name hours : string) : JsValue :=
  JObj [("storeName", JStr name); ("storeAddress", JStr "Nevsky 1");
        ("storeDistrict", JStr "Central"); ("storeWorkingTime", JStr hours);
        ("drugName", JStr "Pentasa 500")].

Definition timeout : Err.t :=
  {| Err.instanceof_Error := true;
     Err.message := "timeout of 30000ms exceeded";
     Err.response := None; Err.request := true |}.

Definition bot_blocked : Err.t :=
  new_Error "ETELEGRAM: 403 Forbidden: bot was blocked by the user".

Definition too_many_requests : Err.t :=
  new_Error "ETELEGRAM: 429 Too Many Requests: retry after 5".

Definition alone (tr : list Event) (w : World) : World := w.

(** Every query finds [pharmacies]; every message is delivered. *)
Definition all_found (pharmacies : list JsValue) : Env :=
  {| source := fun _ _ => Fulfilled 200 (found pharmacies);
     transport := fun _ _ _ => Sent;
     meanwhile := alone |}.

(** Every query is answered [reply]. *)
Definition answering (reply : AxiosOutcome) : Env :=
  {| source := fun _ _ => reply;
     transport := fun _ _ _ => Sent;
     meanwhile := alone |}.

(** Nothing is found; recipient 2 has blocked the bot and recipient 3 is
    rate-limited. *)
Definition second_blocked : Env :=
  {| source := fun _ _ => Fulfilled 200 (found []);
     transport := fun _ c _ =>
       if c =? 2 then SendFailed bot_blocked
       else if c =? 3 then SendFailed too_many_requests
       else Sent;
     meanwhile := alone |}.

(** How often [nom] has been queried. *)
Definition asked (nom : string) (tr : list Event) : nat :=
  length (filter (fun n => n = nom) (searches tr)).

(** "A" times out when first queried and is not found afterwards; "B" is
    not found when first queried and times out afterwards. *)
Definition alternating : Env :=
  {| source := fun tr nom =>
       if String.eqb nom "A"
       then if (asked nom tr =? 0)%nat then Rejected timeout
            else Fulfilled 200 (found [])
       else if (asked nom tr =? 0)%nat then Fulfilled 200 (found [])
            else Rejected timeout;
     transport := fun _ _ _ => Sent;
     meanwhile := alone |}.

(** [/start] from chat 2. *)
Definition start_2 : Update :=
  {| chat := 2;
     from := Some {| User.id := 2; User.username := None;
                     User.first_name := "Ann"; User.last_name := None |} |}.

(** Nothing is found and every message is delivered; chat 2 subscribes
    while the first message of the run is on its way. *)
Definition joining : Env :=
  {| source := fun _ _ => Fulfilled 200 (found []);
     transport := fun _ _ _ => Sent;
     meanwhile := fun tr w =>
       if (length (deliveries tr) =? 1)%nat && negb (isSubscribed 2 (db w))
       then (exec (all_found []) (on_start start_2) w []).1.1
       else w |}.

(** The world after a first run in which "A" has timed out: its retry is
    pending. *)
Definition retry_pending : World :=
  (exec alternating checkAllDrugs (world "A,B" []) []).1.1.

(** A pharmacy without opening hours. *)
Definition no_hours : JsValue := JObj [("storeName", JStr "Apteka 1")].

(** A subscriber whose username is the empty string. *)
Definition nameless : Subscriber :=
  {| chatId := 1; username := Some ""; firstName := Some "Ann";
     lastName := None |}.

(** [/stop] from chat 1. *)
Definition stop_1 : Update :=
  {| chat := 1;
     from := Some {| User.id := 1; User.username := None;
                     User.first_name := "Ann"; User.last_name := None |} |}.

End Scenario.


(** ** index.ts: the configuration check and the start-up *)

(** [process.env], as far as the program reads it. *)
Module Config.
Record t : Type := {
  TELEGRAM_BOT_TOKEN : option string;
  DRUGS_TO_CHECK : option string;
  CRON_SCHEDULE : option string
}.
End Config.

(** The lines that [validateConfig] pushes to [errors]. *)
Inductive ConfigError : Type :=
| token_not_found
| drugs_not_found
| schedule_not_found
| schedule_not_valid (schedule : string).

Section validateConfig.

(** [cron.validate] of node-cron. *)
Variable cron_validate : string → bool.

(** [errors], after the three tests. *)
Definition config_errors (env : Config.t) : list ConfigError :=
  (if or_missing (Config.TELEGRAM_BOT_TOKEN env) is Some _ then []
   else [token_not_found])
  ++ (if or_missing (Config.DRUGS_TO_CHECK env) is Some _ then []
      else [drugs_not_found])
  ++ (match or_missing (Config.CRON_SCHEDULE env) with
      | None => [schedule_not_found]
      | Some schedule =>
          if cron_validate schedule then [] else [schedule_not_valid schedule]
      end).

(** [validateConfig()]: what it logs, and the code of [process.exit] when it
    ends the process. *)
Definition validateConfig (env : Config.t) : list Level * option Z :=
  let errors := config_errors env in
  if (0 <? length errors)%nat
  then (lvl_error :: map (fun _ => lvl_error) errors, Some 1)
  else ([lvl_info], None).

End validateConfig.

(** The callback given to [cron.schedule]: it calls [checkAllDrugs()] and
    does not wait for it. *)
Definition cron_tick : Prog unit :=
  logger_info ;;
  checkAllDrugs.

(** The end of the module: with [--check-now] one run and no cron job,
    otherwise the cron job and a first run. *)
Definition startup (check_now : bool) : Prog unit :=
  if check_now
  then
    logger_info ;;
    try_catch
      (checkAllDrugs ;;
       logger_info)
      (fun error => logger_error)
  else
    stats ← Get (fun w => Ret (getStatistics (db w)));
    logger_info ;;
    logger_info ;;
    logger_info ;;
    logger_info ;;
    logger_info ;;
    logger_info ;;
    logger_info ;;
    logger_info ;;
    checkAllDrugs.

(** ** Further notions *)

(** The calls of the registry, from the commands and from the fan-out. *)
Inductive RegistryCall : Type :=
| Subscribe (subscriber : Subscriber)
| Unsubscribe (chat : Z).

Definition registry_call (d : Database) (call : RegistryCall) : Database :=
  match call with
  | Subscribe subscriber => addSubscriber subscriber d
  | Unsubscribe chat => (removeSubscriber chat d).1
  end.

(** The last action that [subscription_history] holds for a chat. *)
Definition last_action (chat : Z) (history : list (Z * string))
    : option string :=
  snd <$> last (filter (fun entry => entry.1 = chat) history).

(** The two tables agree: a chat without a row has no history; a chat with
    a row is active and last subscribed, or inactive and last
    unsubscribed. *)
Definition tables_agree (d : Database) : Prop :=
  ∀ chat,
    match subscribers d !! chat with
    | None => last_action chat (subscription_history d) = None
    | Some row =>
        (DbRow.is_active row = 1
         ∧ last_action chat (subscription_history d) = Some "subscribe")
        ∨ (DbRow.is_active row = 0
           ∧ last_action chat (subscription_history d) = Some "unsubscribe")
    end.

(** How often [c] occurs in [s]. *)
Fixpoint occurrences (c : ascii) (s : string) : nat :=
  match s with
  | EmptyString => 0
  | String c' s' => (if Ascii.eqb c' c then 1 else 0) + occurrences c s'
  end.

(** At most one retry timer is pending, and it is the one [retryTimer]
    holds. *)
Definition one_timer (w : World) : Prop :=
  timers w = [] ∨ ∃ t, timers w = [t] ∧ retryTimer w = Some t.

(** A step that keeps the timers in that state. *)
Definition one_timer_kept (w w' : World) : Prop := one_timer w → one_timer w'.

(** Nothing but [drugs] comes into the failed set. *)
Definition only_adds (drugs : list string) (w w' : World) : Prop :=
  ∀ drug, drug ∈ apiErrorDrugs w' → drug ∈ apiErrorDrugs w ∨ drug ∈ drugs.

(** An answer with a list of matches that can be shown. *)
Definition shown_well (reply : AxiosOutcome) : Prop :=
  ∃ status data matches,
    reply = Fulfilled status data
    ∧ match_list data = Some matches
    ∧ Forall (fun p => presentable p = true) (firstn 3 matches).

(** * Properties *)

(** ** The registry *)

Lemma or_missing_idemp x : or_missing (or_missing x) = or_missing x.
Proof.
  destruct x as [s|]; simpl; [|done].
  destruct (String.eqb s "") eqn:E; simpl; [done|]. by rewrite E.
Qed.

Lemma or_missing_nonempty s : s ≠ "" → or_missing (Some s) = Some s.
Proof.
  intros Hs. simpl. destruct (String.eqb_spec s ""); [done|done].
Qed.

Lemma elem_of_scan d c r : (c, r) ∈ scan d ↔ subscribers d !! c = Some r.
Proof.
  unfold scan. rewrite merge_sort_Permutation. apply elem_of_map_to_list.
Qed.

Lemma elem_of_getActiveSubscribers d s :
  s ∈ getActiveSubscribers d ↔
  ∃ c r, subscribers d !! c = Some r ∧ DbRow.is_active r = 1 ∧
         s = {| chatId := c;
                username := or_missing (DbRow.username r);
                firstName := or_missing (DbRow.first_name r);
                lastName := or_missing (DbRow.last_name r) |}.
Proof.
  unfold getActiveSubscribers, statements.getActiveSubscribers.
  rewrite list_elem_of_fmap. split.
  - intros [[c r] [-> [Ha Hin]%list_elem_of_filter]]. simpl in *.
    exists c, r. by rewrite <- elem_of_scan.
  - intros (c & r & Hr & Ha & Hs). exists (c, r). split; [done|].
    apply list_elem_of_filter. split; [done|]. by apply elem_of_scan.
Qed.

Lemma isSubscribed_spec c d :
  isSubscribed c d = true ↔
  ∃ r, subscribers d !! c = Some r ∧ DbRow.is_active r = 1.
Proof.
  unfold isSubscribed, statements.checkSubscriber.
  destruct (subscribers d !! c) as [r|]; simpl.
  - rewrite Z.eqb_eq. split.
    + intros Ha. by exists r.
    + by intros (r' & [= <-] & Ha).
  - split; [done|]. by intros (r & [=] & _).
Qed.

(** [removeSubscriber] answers whether the chat has a row, active or not. *)
Lemma removeSubscriber_result c d :
  (removeSubscriber c d).2 = true ↔ is_Some (subscribers d !! c).
Proof.
  unfold removeSubscriber, statements.deactivateSubscriber.
  destruct (subscribers d !! c) as [r|]; simpl; split;
    done || by intros [? ?].
Qed.

Lemma isSubscribed_removeSubscriber c c' d :
  isSubscribed c (removeSubscriber c' d).1 =
  if decide (c = c') then false else isSubscribed c d.
Proof.
  assert (∀ d0 : Database,
    isSubscribed c (statements.deactivateSubscriber c' d0).1 =
    if decide (c = c') then false else isSubscribed c d0) as Hd.
  { intros d0. unfold isSubscribed, statements.checkSubscriber. simpl.
    destruct (decide (c = c')) as [->|Hne].
    - rewrite lookup_alter_eq. by destruct (subscribers d0 !! c').
    - by rewrite lookup_alter_ne. }
  unfold removeSubscriber.
  destruct (statements.deactivateSubscriber c' d) as [d' n] eqn:Hdeact.
  specialize (Hd d). rewrite Hdeact in Hd. simpl in Hd.
  by destruct (0 <? n).
Qed.

Lemma isSubscribed_deactivate_all c chats d :
  isSubscribed c (deactivate_all chats d) = true ↔
  isSubscribed c d = true ∧ c ∉ chats.
Proof.
  revert d. induction chats as [|c' chats IH]; intros d; simpl.
  - split; [|by intros [? _]]. intros ?. split; [done|]. apply not_elem_of_nil.
  - unfold deactivate_all in *. simpl.
    rewrite IH, isSubscribed_removeSubscriber, not_elem_of_cons.
    case_decide; intuition congruence.
Qed.

Lemma addSubscriber_row s d :
  subscribers (addSubscriber s d) !! chatId s =
  Some {| DbRow.username := or_missing (username s);
          DbRow.first_name := or_missing (firstName s);
          DbRow.last_name := or_missing (lastName s);
          DbRow.is_active := 1 |}.
Proof. simpl. apply lookup_insert_eq. Qed.

(** C9, at the input where the code departs from it: chat 1 has subscribed
    and then unsubscribed, so it is inactive, and [removeSubscriber] still
    returns [true] for it. *)
Theorem removeSubscriber_true_for_inactive :
  let d := (removeSubscriber 1 (Scenario.registry [1])).1 in
  isSubscribed 1 d = false ∧ (removeSubscriber 1 d).2 = true.
Proof. split; reflexivity. Qed.

(** The bot's side of it: [/stop] sent twice is answered twice that the
    chat has unsubscribed, and is written twice to the history. *)
Example stop_twice_unsubscribes_twice :
  let '(w1, tr1, _) :=
    exec (Scenario.all_found []) (on_stop Scenario.stop_1)
         (Scenario.world "A" [1]) [] in
  let '(w2, tr2, _) :=
    exec (Scenario.all_found []) (on_stop Scenario.stop_1) w1 tr1 in
  isSubscribed 1 (db w1) = false
  ∧ deliveries tr2 = [(1, Goodbye); (1, Goodbye)]
  ∧ subscription_history (db w2)
    = [(1, "subscribe"); (1, "unsubscribe"); (1, "unsubscribe")].
Proof. vm_compute. repeat split. Qed.

(** A subscriber none of whose fields is the empty string is stored as it
    is. *)
Lemma stored_faithful s :
  username s ≠ Some "" → firstName s ≠ Some "" → lastName s ≠ Some "" →
  stored s = s.
Proof.
  destruct s as [c [u|] [f|] [l|]]; unfold stored; simpl; intros Hu Hf Hl;
    repeat match goal with
           | |- context [String.eqb ?x ""] =>
               destruct (String.eqb_spec x ""); [congruence|]
           end; done.
Qed.

(** C10, as it fails: a subscriber whose username is the empty string is
    active after [addSubscriber], but the registry holds no username for it,
    and the record that [getActiveSubscribers] lists is not the one that was
    added. *)
Lemma empty_username_is_not_stored :
  let d := addSubscriber Scenario.nameless Scenario.no_one in
  isSubscribed 1 d = true
  ∧ (Scenario.nameless ∉ getActiveSubscribers d)
  ∧ DbRow.username <$> (subscribers d !! 1) = Some None.
Proof.
  split; [reflexivity|]. split; [|reflexivity].
  intros H. apply elem_of_getActiveSubscribers in H.
  destruct H as (c & r & _ & _ & H). injection H as _ Hu _ _.
  destruct (DbRow.username r) as [u|]; simpl in Hu; [|done].
  destruct (String.eqb_spec u ""); [done|congruence].
Qed.

(** C10, amended: after [addSubscriber s] the chat of [s] is subscribed;
    the active list holds one record for it, which is [s] with every
    empty-string field missing; and the row has the new fields and is active,
    whatever the registry held for that chat before, a deactivated row
    included. *)
Theorem addSubscriber_reactivates (s : Subscriber) (d : Database) :
  let d' := addSubscriber s d in
  isSubscribed (chatId s) d' = true
  ∧ stored s ∈ getActiveSubscribers d'
  ∧ (∀ s', s' ∈ getActiveSubscribers d' → chatId s' = chatId s →
           s' = stored s)
  ∧ subscribers d' !! chatId s =
      Some {| DbRow.username := or_missing (username s);
              DbRow.first_name := or_missing (firstName s);
              DbRow.last_name := or_missing (lastName s);
              DbRow.is_active := 1 |}.
Proof.
  intros d'. pose proof (addSubscriber_row s d) as Hrow. fold d' in Hrow.
  split; [|split; [|split]]; [| | |done].
  - apply isSubscribed_spec. eauto.
  - apply elem_of_getActiveSubscribers. eexists _, _. split; [exact Hrow|].
    split; [done|]. unfold stored. simpl. by rewrite !or_missing_idemp.
  - intros s' (c & r & Hr & _ & ->)%elem_of_getActiveSubscribers Hc.
    simpl in Hc. subst c. rewrite Hrow in Hr. injection Hr as <-.
    unfold stored. simpl. by rewrite !or_missing_idemp.
Qed.

(** Subscribing again after [/stop] makes the chat active again. *)
Lemma resubscription_reactivates s d :
  isSubscribed (chatId s) (removeSubscriber (chatId s) d).1 = false
  ∧ isSubscribed (chatId s)
      (addSubscriber s (removeSubscriber (chatId s) d).1) = true.
Proof.
  split.
  - rewrite isSubscribed_removeSubscriber. by rewrite decide_True.
  - apply isSubscribed_spec. eexists. split; [apply addSubscriber_row|done].
Qed.

(** ** Running programs: equations *)

Section exec_facts.
Context (env : Env).

Lemma exec_bind {A B} (p : Prog A) (f : A → Prog B) w tr :
  exec env (p ≫= f) w tr =
  match exec env p w tr with
  | (w', tr', Returned a) => exec env (f a) w' tr'
  | (w', tr', Thrown e) => (w', tr', Thrown e)
  end.
Proof.
  unfold mbind, Prog_bind. revert w tr.
  induction p as [a|e|k IH|g k IH|ev k IH|k IH|nom k IH|c m k IH];
    intros w tr; simpl; auto.
Qed.

Lemma exec_bind' {A B} (p : Prog A) (f : A → Prog B) w tr :
  exec env (bind p f) w tr =
  match exec env p w tr with
  | (w', tr', Returned a) => exec env (f a) w' tr'
  | (w', tr', Thrown e) => (w', tr', Thrown e)
  end.
Proof. apply exec_bind. Qed.

Lemma exec_try_catch {A} (p : Prog A) (h : Err.t → Prog A) w tr :
  exec env (try_catch p h) w tr =
  match exec env p w tr with
  | (w', tr', Returned a) => (w', tr', Returned a)
  | (w', tr', Thrown e) => exec env (h e) w' tr'
  end.
Proof.
  revert w tr.
  induction p as [a|e|k IH|g k IH|ev k IH|k IH|nom k IH|c m k IH];
    intros w tr; simpl; auto.
Qed.

Lemma exec_try_finally {A} (p : Prog A) (cleanup : Prog unit) w tr :
  exec env (try_finally p cleanup) w tr =
  match exec env p w tr with
  | (w', tr', o) =>
      match exec env cleanup w' tr' with
      | (w'', tr'', Returned _) => (w'', tr'', o)
      | (w'', tr'', Thrown e) => (w'', tr'', Thrown e)
      end
  end.
Proof.
  revert w tr.
  induction p as [a|e|k IH|g k IH|ev k IH|k IH|nom k IH|c m k IH];
    intros w tr; simpl; auto.
  - rewrite exec_bind. by destruct (exec env cleanup w tr) as [[? ?] [[]|?]].
  - rewrite exec_bind. by destruct (exec env cleanup w tr) as [[? ?] [[]|?]].
Qed.

Lemma exec_await {A} (p : Prog A) w tr :
  exec env (await p) w tr =
  match exec env p w tr with
  | (w', tr', o) => (meanwhile env tr' w', tr', o)
  end.
Proof.
  unfold await. rewrite exec_try_finally.
  by destruct (exec env p w tr) as [[? ?] ?].
Qed.

Lemma exec_logger l w tr :
  exec env (logger l) w tr = (add_log l w, tr, Returned tt).
Proof. done. Qed.

Lemma exec_logger_info w tr :
  exec env logger_info w tr = (add_log lvl_info w, tr, Returned tt).
Proof. done. Qed.

Lemma exec_logger_warn w tr :
  exec env logger_warn w tr = (add_log lvl_warn w, tr, Returned tt).
Proof. done. Qed.

Lemma exec_logger_error w tr :
  exec env logger_error w tr = (add_log lvl_error w, tr, Returned tt).
Proof. done. Qed.

Lemma exec_modify f w tr :
  exec env (modify f) w tr = (f w, tr, Returned tt).
Proof. done. Qed.

End exec_facts.

(** ** Steps and calls of a program *)

Section respects_facts.
Context (R : World → World → Prop).

Lemma respects_bind {A B} (p : Prog A) (f : A → Prog B) :
  respects R p → (∀ a, respects R (f a)) → respects R (p ≫= f).
Proof.
  unfold mbind, Prog_bind. intros Hp Hf.
  induction p as [a|e|k IH|g k IH|ev k IH|k IH|nom k IH|c m k IH];
    simpl in *; intuition auto.
Qed.

Lemma respects_try_catch {A} (p : Prog A) (h : Err.t → Prog A) :
  respects R p → (∀ e, respects R (h e)) → respects R (try_catch p h).
Proof.
  intros Hp Hh.
  induction p as [a|e|k IH|g k IH|ev k IH|k IH|nom k IH|c m k IH];
    simpl in *; intuition auto.
Qed.

Lemma respects_try_finally {A} (p : Prog A) (cleanup : Prog unit) :
  respects R p → respects R cleanup → respects R (try_finally p cleanup).
Proof.
  intros Hp Hc.
  induction p as [a|e|k IH|g k IH|ev k IH|k IH|nom k IH|c m k IH];
    simpl in *; try (intuition auto; fail).
  - by apply respects_bind.
  - by apply respects_bind.
Qed.

Lemma respects_await {A} (p : Prog A) : respects R p → respects R (await p).
Proof. intros Hp. by apply respects_try_finally. Qed.

Lemma respects_forEach {X} (body : X → Prog unit) (l : list X) :
  (∀ x, respects R (body x)) → respects R (forEach body l).
Proof.
  intros Hb. induction l as [|x l IH]; simpl; [done|].
  apply respects_bind; auto.
Qed.

(** A task's own steps and those of the others in between add up. *)
Lemma respects_exec `{!Reflexive R, !Transitive R} {A} env (p : Prog A) w tr :
  (∀ tr w, R w (meanwhile env tr w)) →
  respects R p → R w (exec env p w tr).1.1.
Proof.
  intros Henv. revert w tr.
  induction p as [a|e|k IH|g k IH|ev k IH|k IH|nom k IH|c m k IH];
    intros w tr Hp; simpl in *; try done.
  - by apply IH.
  - destruct Hp as [Hg Hk]. etrans; [apply Hg|]. by apply IH.
  - by apply IH.
  - etrans; [apply Henv|]. by apply IH.
  - etrans; [apply Henv|]. by apply IH.
  - etrans; [apply Henv|]. by apply IH.
Qed.
End respects_facts.

Section emits_facts.
Context (P : Event → Prop).

Lemma emits_bind {A B} (p : Prog A) (f : A → Prog B) :
  emits P p → (∀ a, emits P (f a)) → emits P (p ≫= f).
Proof.
  unfold mbind, Prog_bind. intros Hp Hf.
  induction p as [a|e|k IH|g k IH|ev k IH|k IH|nom k IH|c m k IH];
    simpl in *; try (intuition auto; fail).
  - intros r. destruct (Hp r). auto.
  - intros r. destruct (Hp r). auto.
Qed.

Lemma emits_try_catch {A} (p : Prog A) (h : Err.t → Prog A) :
  emits P p → (∀ e, emits P (h e)) → emits P (try_catch p h).
Proof.
  intros Hp Hh.
  induction p as [a|e|k IH|g k IH|ev k IH|k IH|nom k IH|c m k IH];
    simpl in *; try (intuition auto; fail).
  - intros r. destruct (Hp r). auto.
  - intros r. destruct (Hp r). auto.
Qed.

Lemma emits_try_finally {A} (p : Prog A) (cleanup : Prog unit) :
  emits P p → emits P cleanup → emits P (try_finally p cleanup).
Proof.
  intros Hp Hc.
  induction p as [a|e|k IH|g k IH|ev k IH|k IH|nom k IH|c m k IH];
    simpl in *; try (intuition auto; fail).
  - by apply emits_bind.
  - by apply emits_bind.
  - intros r. destruct (Hp r). auto.
  - intros r. destruct (Hp r). auto.
Qed.

Lemma emits_await {A} (p : Prog A) : emits P p → emits P (await p).
Proof. intros Hp. by apply emits_try_finally. Qed.

Lemma emits_forEach {X} (body : X → Prog unit) (l : list X) :
  (∀ x, emits P (body x)) → emits P (forEach body l).
Proof.
  intros Hb. induction l as [|x l IH]; simpl; [done|].
  apply emits_bind; auto.
Qed.

Lemma emits_exec {A} env (p : Prog A) w tr :
  emits P p → ∃ evs, (exec env p w tr).1.2 = tr ++ evs ∧ Forall P evs.
Proof.
  revert w tr.
  induction p as [a|e|k IH|g k IH|ev k IH|k IH|nom k IH|c m k IH];
    intros w tr Hp; simpl in *.
  - exists []. by rewrite app_nil_r.
  - exists []. by rewrite app_nil_r.
  - by apply IH.
  - apply IH, Hp.
  - destruct Hp as [Hev Hk].
    destruct (IH w (tr ++ [ev]) Hk) as (evs & -> & Hevs).
    exists (ev :: evs). rewrite <- app_assoc. split; [done|]. by constructor.
  - by apply IH.
  - destruct (Hp (source env tr nom)) as [Hev Hk].
    set (tr' := tr ++ [_]).
    destruct (IH _ (meanwhile env tr' w) tr' Hk) as (evs & -> & Hevs).
    subst tr'.
    eexists (_ :: evs). rewrite <- app_assoc. split; [done|]. by constructor.
  - destruct (Hp (transport env tr c m)) as [Hev Hk].
    set (tr' := tr ++ [_]).
    destruct (IH _ (meanwhile env tr' w) tr' Hk) as (evs & -> & Hevs).
    subst tr'.
    eexists (_ :: evs). rewrite <- app_assoc. split; [done|]. by constructor.
Qed.
End emits_facts.

(** ** The availability client *)

Section checkDrug_facts.
Context (env : Env).

Lemma member_nullish v name : nullish v = false → is_Some (member v name).
Proof. destruct v; simpl; try done; eauto. Qed.

Lemma exec_log_pharmacies (l : list JsValue) w tr :
  Forall (fun p => nullish p = false) l →
  ∃ w', exec env (forEach (fun pharmacy =>
                         match member pharmacy "storeName" with
                         | Some _ => logger_info
                         | None => Throw TypeError
                         end) l) w tr = (w', tr, Returned tt).
Proof.
  intros H. revert w. induction H as [|p l Hp _ IH]; intros w; simpl.
  - eauto.
  - rewrite exec_bind. destruct (member_nullish p "storeName" Hp) as [v ->].
    simpl. apply IH.
Qed.

Lemma exec_log_pharmacies_null (l : list JsValue) w tr :
  Exists (fun p => nullish p = true) l →
  ∃ w' e, exec env (forEach (fun pharmacy =>
                         match member pharmacy "storeName" with
                         | Some _ => logger_info
                         | None => Throw TypeError
                         end) l) w tr = (w', tr, Thrown e).
Proof.
  intros H. revert w. induction H as [p l Hp|p l _ IH]; intros w; simpl.
  - rewrite exec_bind. destruct p; try done; simpl; eauto.
  - rewrite exec_bind. destruct (member p "storeName"); simpl; eauto.
Qed.

Lemma exec_catch_rethrow (error : Err.t) w tr :
  ∃ w', exec env
          ((if Err.response error is Some _ then logger_error ;; logger_error
            else if Err.request error then logger_error
            else logger_error) ;; Throw error) w tr
        = (w', tr, @Thrown DrugCheckResult error).
Proof.
  rewrite exec_bind.
  destruct (Err.response error), (Err.request error); simpl; eauto.
Qed.

Lemma checkDrug_rejected drugName w tr error :
  source env tr drugName = Rejected error →
  ∃ w', exec env (checkDrug drugName) w tr =
        (w', tr ++ [EvSearch drugName (Rejected error)], Thrown error).
Proof.
  intros Hs. unfold checkDrug. rewrite exec_bind, exec_logger_info.
  rewrite exec_try_catch, exec_bind. simpl. rewrite Hs. simpl.
  apply exec_catch_rethrow.
Qed.

Lemma checkDrug_explicit_failure drugName w tr status data :
  source env tr drugName = Fulfilled status data →
  explicit_failure data = true →
  ∃ w' e, exec env (checkDrug drugName) w tr =
        (w', tr ++ [EvSearch drugName (Fulfilled status data)], Thrown e).
Proof.
  intros Hs Hf. unfold checkDrug. rewrite exec_bind, exec_logger_info.
  rewrite exec_try_catch, exec_bind. simpl. rewrite Hs. simpl.
  unfold explicit_failure in Hf. rewrite Hf. simpl.
  eexists _, _. reflexivity.
Qed.

Lemma checkDrug_unparseable drugName w tr status data :
  source env tr drugName = Fulfilled status data →
  match_list data = None →
  ∃ w' e, exec env (checkDrug drugName) w tr =
        (w', tr ++ [EvSearch drugName (Fulfilled status data)], Thrown e).
Proof.
  intros Hs Hm.
  destruct (explicit_failure data) eqn:Hf;
    [by eapply checkDrug_explicit_failure|].
  unfold checkDrug. rewrite exec_bind, exec_logger_info.
  rewrite exec_try_catch, exec_bind. simpl. rewrite Hs. simpl.
  unfold explicit_failure in Hf. rewrite Hf. simpl.
  unfold match_list in Hm.
  destruct (truthy data && truthy (prop data "success")
            && truthy (prop data "result")); simpl.
  - destruct (prop data "result"); try done; simpl;
      eexists _, _; reflexivity.
  - eexists _, _; reflexivity.
Qed.

Lemma match_list_not_failure data l :
  match_list data = Some l → explicit_failure data = false.
Proof.
  unfold match_list, explicit_failure.
  destruct (truthy data); simpl; [|done].
  destruct (prop data "success") as [| |[]| | | |]; done.
Qed.

Lemma checkDrug_parsed drugName w tr status data l :
  source env tr drugName = Fulfilled status data →
  match_list data = Some l →
  Forall (fun p => nullish p = false) (firstn 3 l) →
  ∃ w', exec env (checkDrug drugName) w tr =
        (w', tr ++ [EvSearch drugName (Fulfilled status data)],
         Returned {| isAvailable := (0 <? length l)%nat;
                     pharmacyCount := Some (length l);
                     pharmacies := Some (firstn 3 l) |}).
Proof.
  intros Hs Hm Hl. pose proof (match_list_not_failure _ _ Hm) as Hf.
  unfold checkDrug. rewrite exec_bind, exec_logger_info.
  rewrite exec_try_catch, exec_bind. simpl. rewrite Hs. simpl.
  unfold explicit_failure in Hf. rewrite Hf. simpl.
  unfold match_list in Hm.
  destruct (truthy data && truthy (prop data "success")
            && truthy (prop data "result")); simpl; [|done].
  destruct (prop data "result"); try done. injection Hm as ->.
  (rewrite exec_bind || rewrite exec_bind').
  destruct (0 <? length l)%nat; simpl; [|eauto].
  edestruct (exec_log_pharmacies (firstn 3 l)) as [w' ->]; [done|].
  simpl. eauto.
Qed.

Lemma checkDrug_null_record drugName w tr status data l :
  source env tr drugName = Fulfilled status data →
  match_list data = Some l →
  Exists (fun p => nullish p = true) (firstn 3 l) →
  ∃ w' e, exec env (checkDrug drugName) w tr =
        (w', tr ++ [EvSearch drugName (Fulfilled status data)], Thrown e).
Proof.
  intros Hs Hm Hl. pose proof (match_list_not_failure _ _ Hm) as Hf.
  unfold checkDrug. rewrite exec_bind, exec_logger_info.
  rewrite exec_try_catch, exec_bind. simpl. rewrite Hs. simpl.
  unfold explicit_failure in Hf. rewrite Hf. simpl.
  unfold match_list in Hm.
  destruct (truthy data && truthy (prop data "success")
            && truthy (prop data "result")); simpl; [|done].
  destruct (prop data "result"); try done. injection Hm as ->.
  (rewrite exec_bind || rewrite exec_bind').
  destruct (0 <? length l)%nat eqn:Hlen; simpl.
  - edestruct (exec_log_pharmacies_null (firstn 3 l)) as (w' & e & ->);
      [done|].
    simpl. (rewrite exec_bind || rewrite exec_bind').
    destruct (Err.response e), (Err.request e); simpl; eauto.
  - destruct l; [by apply Exists_nil in Hl|done].
Qed.
End checkDrug_facts.

Lemma nullish_dichotomy (l : list JsValue) :
  Forall (fun p => nullish p = false) l ∨ Exists (fun p => nullish p = true) l.
Proof.
  induction l as [|p l [IH|IH]]; [by left| |by right; right].
  destruct (nullish p) eqn:Hp; [right; by left|left; by constructor].
Qed.

(** An answer has failed the query or carries a list the client returns. *)
Lemma QueryFailed_or_matches reply :
  QueryFailed reply
  ∨ ∃ status data matches,
      reply = Fulfilled status data ∧ match_list data = Some matches
      ∧ Forall (fun p => nullish p = false) (firstn 3 matches).
Proof.
  destruct reply as [status data|e]; [|left; constructor].
  destruct (match_list data) as [matches|] eqn:Hm;
    [|left; by apply unexpected_payload].
  destruct (nullish_dichotomy (firstn 3 matches)) as [Hl|Hl].
  - right. by exists status, data, matches.
  - left. by eapply broken_record.
Qed.



(** What [checkDrug] returns, it returns for a list of the answer. *)
Lemma checkDrug_returns_matches env drugName w tr w' tr' result :
  exec env (checkDrug drugName) w tr = (w', tr', Returned result) →
  ∃ status data matches,
    source env tr drugName = Fulfilled status data
    ∧ match_list data = Some matches
    ∧ result = {| isAvailable := (0 <? length matches)%nat;
                  pharmacyCount := Some (length matches);
                  pharmacies := Some (firstn 3 matches) |}.
Proof.
  intros Hexec.
  destruct (source env tr drugName) as [status data|e] eqn:Hs.
  - destruct (match_list data) as [l|] eqn:Hm.
    + destruct (nullish_dichotomy (firstn 3 l)) as [Hl|Hl].
      * edestruct (checkDrug_parsed env) as [w'' Heq]; [done..|].
        rewrite Heq in Hexec. injection Hexec as _ _ <-. by eexists _, _, _.
      * edestruct (checkDrug_null_record env) as (w'' & e & Heq); [done..|].
        rewrite Heq in Hexec. done.
    + edestruct (checkDrug_unparseable env) as (w'' & e & Heq); [done..|].
      rewrite Heq in Hexec. done.
  - edestruct (checkDrug_rejected env) as [w'' Heq]; [done|].
    rewrite Heq in Hexec. done.
Qed.

(** C3: a query without an answer (a timeout, a network error), a payload
    with the explicit failure flag, and a payload the client cannot take a
    list of pharmacies from each make [checkDrug] throw; it returns no
    result, so none that says not available. *)
Theorem checkDrug_failures (env : Env) (drugName : string) (w : World)
    (tr : list Event) :
  QueryFailed (source env tr drugName) →
  ∃ w' e,
    exec env (checkDrug drugName) w tr
    = (w', tr ++ [EvSearch drugName (source env tr drugName)], Thrown e).
Proof.
  intros Hq. destruct (source env tr drugName) as [status data|e] eqn:Hs.
  - inversion Hq as [|? ? Hf|? ? Hm|? ? matches Hm Hl]; subst.
    + by eapply checkDrug_explicit_failure.
    + by eapply checkDrug_unparseable.
    + by eapply checkDrug_null_record.
  - destruct (checkDrug_rejected env drugName w tr e Hs) as [w' Heq].
    by exists w', e.
Qed.

Lemma checkDrug_failures_witness :
  (∃ w' e,
     exec (Scenario.answering (Rejected Scenario.timeout))
          (checkDrug "Pentasa") (Scenario.world "Pentasa" [1]) []
     = (w', [] ++ [EvSearch "Pentasa" (Rejected Scenario.timeout)], Thrown e))
  ∧ (∃ w' e,
       exec (Scenario.answering (Fulfilled 200 Scenario.refused))
            (checkDrug "Pentasa") (Scenario.world "Pentasa" [1]) []
       = (w', [] ++ [EvSearch "Pentasa" (Fulfilled 200 Scenario.refused)],
          Thrown e))
  ∧ (∃ w' e,
       exec (Scenario.answering (Fulfilled 200 (JStr "<html>502</html>")))
            (checkDrug "Pentasa") (Scenario.world "Pentasa" [1]) []
       = (w', [] ++ [EvSearch "Pentasa"
                       (Fulfilled 200 (JStr "<html>502</html>"))],
          Thrown e)).
Proof.
  split; [|split].
  - apply (checkDrug_failures (Scenario.answering (Rejected Scenario.timeout))
             "Pentasa" (Scenario.world "Pentasa" [1]) []).
    apply no_answer.
  - apply (checkDrug_failures
             (Scenario.answering (Fulfilled 200 Scenario.refused))
             "Pentasa" (Scenario.world "Pentasa" [1]) []).
    apply failure_flag. reflexivity.
  - apply (checkDrug_failures
             (Scenario.answering (Fulfilled 200 (JStr "<html>502</html>")))
             "Pentasa" (Scenario.world "Pentasa" [1]) []).
    apply unexpected_payload. reflexivity.
Defined.

(** ** The notification fan-out *)

Lemma deliveries_app tr1 tr2 :
  deliveries (tr1 ++ tr2) = deliveries tr1 ++ deliveries tr2.
Proof. apply omap_app. Qed.
Lemma deactivations_app tr1 tr2 :
  deactivations (tr1 ++ tr2) = deactivations tr1 ++ deactivations tr2.
Proof. apply omap_app. Qed.
Lemma blocked_app tr1 tr2 : blocked (tr1 ++ tr2) = blocked tr1 ++ blocked tr2.
Proof. apply omap_app. Qed.
Lemma searches_app tr1 tr2 :
  searches (tr1 ++ tr2) = searches tr1 ++ searches tr2.
Proof. apply omap_app. Qed.
Lemma registry_reads_app tr1 tr2 :
  registry_reads (tr1 ++ tr2) = registry_reads tr1 ++ registry_reads tr2.
Proof. apply omap_app. Qed.

Section fanout.
Context (env : Env).

Lemma exec_deliver message subscribers w tr :
  ∃ w' evs,
    exec env (deliver message subscribers) w tr = (w', tr ++ evs, Returned tt)
    ∧ deliveries evs = map (fun s => (chatId s, message)) subscribers
    ∧ deactivations evs = blocked evs
    ∧ searches evs = []
    ∧ registry_reads evs = []
    ∧ ((∀ tr w, db (meanwhile env tr w) = db w) →
       db w' = deactivate_all (deactivations evs) (db w)).
Proof.
  revert w tr. induction subscribers as [|s rest IH]; intros w tr.
  { exists w, []. by rewrite app_nil_r. }
  cbn [deliver]. rewrite exec_bind, exec_try_catch, exec_bind.
  simpl exec at 1.
  set (reply := transport env tr (chatId s) message).
  set (tr1 := tr ++ [EvSendMessage (chatId s) message reply]).
  destruct reply as [|e] eqn:Hreply.
  - simpl.
    edestruct IH as (w' & evs & Heq & Hd & Hb & Hs & Hr & Hdb).
    rewrite Heq. clear Heq.
    exists w', (EvSendMessage (chatId s) message Sent :: evs).
    subst tr1. rewrite <- app_assoc. simpl.
    split; [done|]. rewrite Hd, Hs, Hr. split_and!; try done.
    intros Hm. rewrite (Hdb Hm). simpl. by rewrite Hm.
  - cbn [exec]. rewrite exec_bind, exec_logger_error.
    destruct (bot_was_blocked e) eqn:Hblocked.
    + simpl.
      edestruct IH as (w' & evs & Heq & Hd & Hb & Hs & Hr & Hdb).
      rewrite Heq. clear Heq.
      eexists w', (_ :: _ :: evs).
      subst tr1. rewrite <- !app_assoc. simpl.
      split; [done|]. rewrite Hd, Hs, Hr, Hblocked.
      split_and!; try done; try (by rewrite Hb).
      intros Hm. rewrite (Hdb Hm). simpl. by rewrite Hm.
    + simpl.
      edestruct IH as (w' & evs & Heq & Hd & Hb & Hs & Hr & Hdb).
      rewrite Heq. clear Heq.
      eexists w', (_ :: evs).
      subst tr1. rewrite <- !app_assoc. simpl.
      split; [done|]. rewrite Hd, Hs, Hr, Hblocked.
      split_and!; try done; try (by rewrite Hb).
      intros Hm. rewrite (Hdb Hm). simpl. by rewrite Hm.
Qed.
End fanout.

Section build.
Context (env : Env).

Lemma exec_format_pharmacy pharmacy :
  if presentable pharmacy
  then ∃ entry, ∀ w tr,
         exec env (format_pharmacy pharmacy) w tr = (w, tr, Returned entry)
  else ∀ w tr,
         exec env (format_pharmacy pharmacy) w tr = (w, tr, Thrown TypeError).
Proof.
  unfold presentable, format_pharmacy.
  destruct pharmacy; simpl; try done;
    try (destruct (prop _ "storeWorkingTime"); simpl; eauto; fail).
Qed.

Lemma exec_format_pharmacies l :
  if forallb presentable l
  then ∃ entries, ∀ w tr,
         exec env (format_pharmacies l) w tr = (w, tr, Returned entries)
  else ∀ w tr,
         exec env (format_pharmacies l) w tr = (w, tr, Thrown TypeError).
Proof.
  induction l as [|p l IH]; simpl; [eauto|].
  pose proof (exec_format_pharmacy p) as Hp.
  destruct (presentable p); simpl.
  - destruct Hp as [entry Hp].
    destruct (forallb presentable l).
    + destruct IH as [entries IH]. exists (entry :: entries). intros w tr.
      rewrite exec_bind, Hp, exec_bind, IH. done.
    + intros w tr. rewrite exec_bind, Hp, exec_bind, IH. done.
  - intros w tr. by rewrite exec_bind, Hp.
Qed.

Lemma exec_build_message drugName result :
  if formattable result
  then ∃ message, ∀ w tr,
         exec env (build_message drugName result) w tr
         = (w, tr, Returned message)
  else ∀ w tr,
         exec env (build_message drugName result) w tr
         = (w, tr, Thrown TypeError).
Proof.
  unfold formattable, build_message.
  destruct (isAvailable result); [|by eexists].
  destruct (pharmacyCount result) as [[|n]|]; [by eexists| |by eexists].
  destruct (pharmacies result) as [l|]; [|by eexists].
  pose proof (exec_format_pharmacies l) as Hl.
  destruct (forallb presentable l).
  - destruct Hl as [entries Hl]. eexists. intros w tr.
    by rewrite exec_bind, Hl.
  - intros w tr. by rewrite exec_bind, Hl.
Qed.

Lemma exec_sendNotification drugName result w tr :
  formattable result = true →
  let subscribers := getActiveSubscribers (db w) in
  ∃ w' message evs,
    exec env (sendNotificationToSubscribers drugName result) w tr
    = (w', tr ++ EvGetActiveSubscribers subscribers :: evs, Returned tt)
    ∧ deliveries evs = map (fun s => (chatId s, message)) subscribers
    ∧ deactivations evs = blocked evs
    ∧ searches evs = []
    ∧ registry_reads evs = []
    ∧ ((∀ tr w, db (meanwhile env tr w) = db w) →
       db w' = deactivate_all (deactivations evs) (db w)).
Proof.
  intros Hf subscribers. unfold sendNotificationToSubscribers.
  rewrite exec_bind. simpl exec at 1. fold subscribers. cbv beta iota.
  rewrite exec_bind, exec_logger_info.
  destruct subscribers as [|s rest] eqn:Hsubs.
  { simpl. exists (add_log lvl_info (add_log lvl_info w)), (OutOfStock drugName), [].
    by split_and!. }
  cbn [length Nat.eqb].
  pose proof (exec_build_message drugName result) as Hb. rewrite Hf in Hb.
  destruct Hb as [message Hb]. rewrite exec_bind, Hb, exec_bind.
  edestruct (exec_deliver env message (s :: rest))
    as (w' & evs & Heq & Hd & Hbl & Hs & Hr & Hdb).
  rewrite Heq. clear Heq. rewrite exec_logger_info.
  exists (add_log lvl_info w'), message, evs.
  rewrite <- app_assoc. split_and!; try done.
Qed.
End build.




(** Three recipients, the second of whom has blocked the bot and the third
    of whom cannot be reached for now: all three deliveries are attempted,
    and the second recipient alone is deactivated. *)
Example second_of_three_blocked :
  let '(w', tr, outcome) :=
    exec Scenario.second_blocked
      (sendNotificationToSubscribers "Pentasa"
         {| isAvailable := false; pharmacyCount := Some 0%nat;
            pharmacies := Some [] |})
      (Scenario.world "Pentasa" [1; 2; 3]) [] in
  outcome = Returned tt
  ∧ deliveries tr = [(1, OutOfStock "Pentasa"); (2, OutOfStock "Pentasa");
                     (3, OutOfStock "Pentasa")]
  ∧ deactivations tr = [2]
  ∧ map chatId (getActiveSubscribers (db w')) = [1; 3].
Proof. vm_compute. repeat split. Qed.

(** ** What the client and the fan-out leave alone *)

Section program_steps.
Context (R : World → World → Prop).
Context (Rlog : ∀ w l, R w (add_log l w)).

Lemma respects_logger l : respects R (logger l).
Proof. simpl. auto. Qed.

Lemma respects_checkDrug drugName : respects R (checkDrug drugName).
Proof using Rlog.
  unfold checkDrug. apply respects_bind; [apply respects_logger|]. intros _.
  apply respects_try_catch.
  - apply respects_bind.
    { intros [? ?| ?]; simpl; auto. }
    intros [status data]. apply respects_bind; [apply respects_logger|].
    intros _. apply respects_bind.
    { destruct (_ && _); simpl; auto. }
    intros _. destruct (_ && _); [|simpl; auto].
    destruct (prop data "result") as [| | | | |items|];
      try (simpl; auto; fail).
    apply respects_bind.
    + destruct (0 <? _)%nat; [|apply respects_logger].
      apply respects_bind; [apply respects_logger|]. intros _.
      apply respects_forEach. intros x.
      destruct (member x "storeName"); simpl; auto.
    + by intros _.
  - intros e. apply respects_bind; [|by intros _].
    destruct (Err.response e), (Err.request e); simpl; auto.
Qed.

Context (Rdb : ∀ w c, R w (set_db (fun d => (removeSubscriber c d).1) w)).

Lemma respects_deliver message subscribers :
  respects R (deliver message subscribers).
Proof using Rlog Rdb.
  induction subscribers as [|s rest IH]; simpl; [done|].
  intros [|e]; simpl; [auto|].
  split; [auto|]. destruct (bot_was_blocked e); simpl; auto.
Qed.

Lemma respects_build_message drugName result :
  respects R (build_message drugName result).
Proof.
  unfold build_message.
  destruct (isAvailable result); [|done].
  destruct (pharmacyCount result) as [[|n]|]; [done| |done].
  destruct (pharmacies result) as [l|]; [|done].
  apply respects_bind; [|done].
  induction l as [|p l IH]; simpl; [done|].
  apply respects_bind.
  - unfold format_pharmacy. destruct (member p "storeName"); [|done].
    by destruct (prop p "storeWorkingTime").
  - intros entry. by apply respects_bind.
Qed.

Lemma respects_sendNotification drugName result :
  respects R (sendNotificationToSubscribers drugName result).
Proof using Rlog Rdb.
  unfold sendNotificationToSubscribers. apply respects_bind; [by simpl|].
  intros subscribers. apply respects_bind; [apply respects_logger|].
  intros _. destruct (_ =? _)%nat; [apply respects_logger|].
  apply respects_bind; [apply respects_build_message|]. intros message.
  apply respects_bind; [apply respects_deliver|]. intros _.
  apply respects_logger.
Qed.
End program_steps.

(** ** One item of a pass *)

Lemma searches_not_search evs : Forall not_search evs → searches evs = [].
Proof.
  induction 1 as [|ev evs Hev _ IH]; [done|].
  unfold searches in *. simpl. destruct ev; simpl in *; done.
Qed.

Section items.
Context (env : Env).

(** Whatever the answer, [checkDrug] makes one call: the query. *)
Lemma checkDrug_trace drugName w tr :
  (exec env (checkDrug drugName) w tr).1.2
  = tr ++ [EvSearch drugName (source env tr drugName)].
Proof.
  destruct (source env tr drugName) as [status data|e] eqn:Hs.
  - destruct (match_list data) as [l|] eqn:Hm.
    + destruct (nullish_dichotomy (firstn 3 l)) as [Hl|Hl].
      * by edestruct (checkDrug_parsed env) as [w' ->].
      * by edestruct (checkDrug_null_record env) as (w' & e & ->).
    + by edestruct (checkDrug_unparseable env) as (w' & e & ->).
  - by edestruct (checkDrug_rejected env) as [w' ->].
Qed.

Lemma emits_deliver message subscribers :
  emits not_search (deliver message subscribers).
Proof.
  induction subscribers as [|s rest IH]; simpl; [done|].
  intros [|e]; simpl; [done|].
  split; [done|]. by destruct (bot_was_blocked e).
Qed.

Lemma emits_build_message drugName result :
  emits not_search (build_message drugName result).
Proof.
  unfold build_message.
  destruct (isAvailable result); [|done].
  destruct (pharmacyCount result) as [[|n]|]; [done| |done].
  destruct (pharmacies result) as [l|]; [|done].
  apply emits_bind; [|done].
  induction l as [|p l IH]; simpl; [done|].
  apply emits_bind.
  - unfold format_pharmacy. destruct (member p "storeName"); [|done].
    by destruct (prop p "storeWorkingTime").
  - intros entry. by apply emits_bind.
Qed.

Lemma emits_sendNotification drugName result :
  emits not_search (sendNotificationToSubscribers drugName result).
Proof.
  unfold sendNotificationToSubscribers. apply emits_bind; [by simpl|].
  intros subscribers. apply emits_bind; [done|].
  intros _. destruct (_ =? _)%nat; [done|].
  apply emits_bind; [apply emits_build_message|]. intros message.
  apply emits_bind; [apply emits_deliver|]. by intros _.
Qed.


Lemma check_and_notify_failed drug w tr w1 tr1 e :
  exec env (checkDrug drug) w tr = (w1, tr1, Thrown e) →
  exec env (check_and_notify drug) w tr = (meanwhile env tr1 w1, tr1, Thrown e).
Proof.
  intros H. unfold check_and_notify. by rewrite exec_bind, exec_await, H.
Qed.

Lemma check_and_notify_checked drug w tr w1 tr1 result :
  exec env (checkDrug drug) w tr = (w1, tr1, Returned result) →
  exec env (check_and_notify drug) w tr =
  match exec env (sendNotificationToSubscribers drug result)
          (add_log lvl_info (meanwhile env tr1 w1)) tr1 with
  | (w2, tr2, Returned _) =>
      (add_log lvl_info (meanwhile env tr2 w2), tr2, Returned tt)
  | (w2, tr2, Thrown e) => (meanwhile env tr2 w2, tr2, Thrown e)
  end.
Proof.
  intros H. unfold check_and_notify.
  rewrite exec_bind, exec_await, H, exec_bind, exec_logger_info.
  rewrite exec_bind, exec_await.
  by destruct (exec env (sendNotificationToSubscribers _ _) _ _)
    as [[w2 tr2] [[]|e]].
Qed.

Lemma check_and_notify_trace drug w tr :
  ∃ evs, (exec env (check_and_notify drug) w tr).1.2
         = tr ++ EvSearch drug (source env tr drug) :: evs
         ∧ searches evs = [].
Proof.
  pose proof (checkDrug_trace drug w tr) as Ht.
  destruct (exec env (checkDrug drug) w tr) as [[w1 tr1] [result|e]] eqn:Hc;
    simpl in Ht.
  - rewrite (check_and_notify_checked _ _ _ _ _ _ Hc).
    destruct (emits_exec not_search env
                 (sendNotificationToSubscribers drug result)
                 (add_log lvl_info (meanwhile env tr1 w1)) tr1
                 (emits_sendNotification drug result))
      as (evs & Hevs & Hns).
    destruct (exec env (sendNotificationToSubscribers _ _) _ _)
      as [[w2 tr2] [[]|e]]; simpl in Hevs; exists evs; subst;
      rewrite <- app_assoc; split; try done; by apply searches_not_search.
  - rewrite (check_and_notify_failed _ _ _ _ _ _ Hc). exists []. by subst.
Qed.
End items.

(** ** The loops *)

Section loops.
Context (env : Env).

Lemma check_each_cons drug rest w tr :
  exec env (check_each (drug :: rest)) w tr =
  match exec env (check_and_notify drug) w tr with
  | (w1, tr1, Returned _) => exec env (check_each rest) w1 tr1
  | (w1, tr1, Thrown _) =>
      exec env (check_each rest)
        (set_apiErrorDrugs (Set_add drug)
           (add_log lvl_warn (add_log lvl_error w1))) tr1
  end.
Proof.
  cbn [check_each]. rewrite exec_bind, exec_try_catch.
  by destruct (exec env (check_and_notify drug) w tr) as [[w1 tr1] [[]|e]].
Qed.

Lemma retry_each_cons drug rest w tr :
  exec env (retry_each (drug :: rest)) w tr =
  match exec env (check_and_notify drug) w tr with
  | (w1, tr1, Returned _) => exec env (retry_each rest) w1 tr1
  | (w1, tr1, Thrown _) =>
      exec env (retry_each rest) (add_log lvl_warn (add_log lvl_error w1)) tr1
  end.
Proof.
  cbn [retry_each]. rewrite exec_bind, exec_try_catch.
  by destruct (exec env (check_and_notify drug) w tr) as [[w1 tr1] [[]|e]].
Qed.

Lemma check_each_total drugs w tr :
  ∃ w' evs, exec env (check_each drugs) w tr = (w', tr ++ evs, Returned tt)
            ∧ searches evs = drugs.
Proof.
  revert w tr. induction drugs as [|drug rest IH]; intros w tr.
  { exists w, []. by rewrite app_nil_r. }
  rewrite check_each_cons.
  destruct (check_and_notify_trace env drug w tr) as (evs & Htr & Hs).
  destruct (exec env (check_and_notify drug) w tr) as [[w1 tr1] [[]|e]];
    simpl in Htr; subst tr1.
  - destruct (IH w1 (tr ++ EvSearch drug (source env tr drug) :: evs))
      as (w' & evs' & -> & Hs').
    exists w', (EvSearch drug (source env tr drug) :: evs ++ evs').
    rewrite <- app_assoc. split; [done|].
    change (searches (?a :: ?l)) with (drug :: searches l).
    by rewrite searches_app, Hs, Hs'.
  - edestruct IH as (w' & evs' & Heq & Hs'). rewrite Heq.
    exists w', (EvSearch drug (source env tr drug) :: evs ++ evs').
    rewrite <- app_assoc. split; [done|].
    change (searches (?a :: ?l)) with (drug :: searches l).
    by rewrite searches_app, Hs, Hs'.
Qed.

Lemma retry_each_total drugs w tr :
  ∃ w' evs, exec env (retry_each drugs) w tr = (w', tr ++ evs, Returned tt)
            ∧ searches evs = drugs.
Proof.
  revert w tr. induction drugs as [|drug rest IH]; intros w tr.
  { exists w, []. by rewrite app_nil_r. }
  rewrite retry_each_cons.
  destruct (check_and_notify_trace env drug w tr) as (evs & Htr & Hs).
  destruct (exec env (check_and_notify drug) w tr) as [[w1 tr1] [[]|e]];
    simpl in Htr; subst tr1.
  - destruct (IH w1 (tr ++ EvSearch drug (source env tr drug) :: evs))
      as (w' & evs' & -> & Hs').
    exists w', (EvSearch drug (source env tr drug) :: evs ++ evs').
    rewrite <- app_assoc. split; [done|].
    change (searches (?a :: ?l)) with (drug :: searches l).
    by rewrite searches_app, Hs, Hs'.
  - edestruct IH as (w' & evs' & Heq & Hs'). rewrite Heq.
    exists w', (EvSearch drug (source env tr drug) :: evs ++ evs').
    rewrite <- app_assoc. split; [done|].
    change (searches (?a :: ?l)) with (drug :: searches l).
    by rewrite searches_app, Hs, Hs'.
Qed.

Lemma retry_callback_total w tr :
  ∃ w' evs, exec env retry_callback w tr = (w', tr ++ evs, Returned tt)
            ∧ searches evs = apiErrorDrugs w.
Proof.
  unfold retry_callback. rewrite exec_bind. simpl exec at 1. cbv beta iota.
  destruct (apiErrorDrugs w) as [|d ds] eqn:Hset.
  { exists w, []. by rewrite app_nil_r. }
  cbn [length Nat.ltb Nat.leb].
  rewrite exec_bind, exec_logger_info, exec_bind, exec_modify.
  apply retry_each_total.
Qed.
End loops.

(** ** What the engine's loops leave alone *)

Section engine_steps.
Context (R : World → World → Prop).
Context (Rlog : ∀ w l, R w (add_log l w)).
Context (Rdb : ∀ w c, R w (set_db (fun d => (removeSubscriber c d).1) w)).

Lemma respects_check_and_notify drug : respects R (check_and_notify drug).
Proof.
  unfold check_and_notify.
  apply respects_bind; [by apply respects_await, respects_checkDrug|].
  intros result. apply respects_bind; [by apply respects_logger|]. intros _.
  apply respects_bind; [by apply respects_await, respects_sendNotification|].
  intros _. by apply respects_logger.
Qed.

Lemma respects_retry_each drugs : respects R (retry_each drugs).
Proof.
  induction drugs as [|drug rest IH]; [done|]. cbn [retry_each].
  apply respects_bind; [|by intros _].
  apply respects_try_catch; [apply respects_check_and_notify|].
  intros e. apply respects_bind; by try intros _; apply respects_logger.
Qed.

Context (Radd : ∀ w drug, R w (set_apiErrorDrugs (Set_add drug) w)).

Lemma respects_check_each drugs : respects R (check_each drugs).
Proof.
  induction drugs as [|drug rest IH]; [done|]. cbn [check_each].
  apply respects_bind; [|by intros _].
  apply respects_try_catch; [apply respects_check_and_notify|].
  intros e. apply respects_bind; [by apply respects_logger|]. intros _.
  apply respects_bind; [by apply respects_logger|]. intros _.
  simpl. auto.
Qed.

Context (Rtimers : ∀ w f, R w (set_timers f w)).
Context (Rnew : ∀ w, R w (new_timer w)).
Context (Rset : ∀ w t, R w (set_retryTimer t w)).

Lemma respects_scheduleRetryForErrors : respects R scheduleRetryForErrors.
Proof.
  unfold scheduleRetryForErrors. apply respects_bind; [by simpl|]. intros w.
  destruct (0 <? _)%nat; [|done].
  apply respects_bind.
  { destruct (retryTimer w); [|done]. simpl. auto. }
  intros _. apply respects_bind; [by apply respects_logger|]. intros _.
  apply respects_bind; [simpl; auto|]. intros t. simpl. auto.
Qed.

Lemma respects_run_pass : respects R run_pass.
Proof.
  unfold run_pass. apply respects_bind; [by simpl|]. intros w.
  apply respects_bind; [by simpl|]. intros _.
  do 3 (apply respects_bind; [by apply respects_logger|]; intros _).
  apply respects_bind; [apply respects_check_each|]. intros _.
  apply respects_bind; [by apply respects_logger|]. intros _.
  apply respects_scheduleRetryForErrors.
Qed.
End engine_steps.

#[local] Instance retry_is_over_refl : Reflexive retry_is_over.
Proof. by intros w. Qed.

#[local] Instance retry_is_over_trans : Transitive retry_is_over.
Proof.
  intros w1 w2 w3 (H1 & Ha & Hb & Hc) (H2 & Ha' & Hb' & Hc').
  split_and!; [auto|congruence..].
Qed.

#[local] Instance guard_kept_refl : Reflexive guard_kept.
Proof. by intros w. Qed.

#[local] Instance guard_kept_trans : Transitive guard_kept.
Proof. unfold guard_kept. intros w1 w2 w3 H1 H2. congruence. Qed.

#[local] Instance failures_kept_refl : Reflexive failures_kept.
Proof. intros w drug Hd. exact Hd. Qed.

#[local] Instance failures_kept_trans : Transitive failures_kept.
Proof. unfold failures_kept. intros w1 w2 w3 H1 H2 drug. auto. Qed.

Lemma elem_of_Set_add x y s : x ∈ Set_add y s ↔ x = y ∨ x ∈ s.
Proof.
  unfold Set_add. case_decide.
  - split; [by right|]. by intros [->|].
  - rewrite elem_of_app, list_elem_of_singleton. tauto.
Qed.

(** Checking an item and notifying of it touches none of the engine's
    variables. *)
Lemma check_and_notify_same_engine drug :
  respects same_engine (check_and_notify drug).
Proof. by apply respects_check_and_notify. Qed.

(** No step of the retry wave adds a name to the failed set or touches the
    timer. *)
Lemma retry_callback_is_over : respects retry_is_over retry_callback.
Proof.
  unfold retry_callback. apply respects_bind; [by simpl|]. intros w.
  destruct (0 <? _)%nat; [|done].
  apply respects_bind; [by apply respects_logger|]. intros _.
  apply respects_bind.
  { simpl. split; [|done]. intros w0. split_and!; try done.
    simpl. by intros drug ?%elem_of_nil. }
  intros _. by apply respects_retry_each.
Qed.

(** A step that changes neither the failed set nor what else the relation
    looks at. *)
Ltac kept := intros; hnf; simpl; intros; auto.

(** No step of a run takes a name out of the failed set. *)
Lemma checkAllDrugs_keeps_failures : respects failures_kept checkAllDrugs.
Proof.
  unfold checkAllDrugs. apply respects_bind; [by simpl|]. intros w.
  destruct (isChecking w); [apply respects_logger; kept|].
  apply respects_bind; [simpl; split; [kept|done]|]. intros _.
  apply respects_try_finally; [|simpl; split; [kept|done]].
  apply respects_run_pass; try kept.
  apply elem_of_Set_add. by right.
Qed.

(** No step of a pass, of the retry wave or of a command touches the run
    guard. *)
Lemma run_pass_keeps_guard : respects guard_kept run_pass.
Proof. by apply respects_run_pass. Qed.

Lemma retry_callback_keeps_guard : respects guard_kept retry_callback.
Proof.
  unfold retry_callback. apply respects_bind; [by simpl|]. intros w.
  destruct (0 <? _)%nat; [|done].
  apply respects_bind; [by apply respects_logger|]. intros _.
  apply respects_bind; [by simpl|]. intros _. by apply respects_retry_each.
Qed.

Lemma timer_fires_keeps_guard t : respects guard_kept (timer_fires t).
Proof.
  unfold timer_fires. apply respects_bind; [by simpl|]. intros w.
  case_decide; [|done].
  apply respects_bind; [by simpl|]. intros _.
  apply retry_callback_keeps_guard.
Qed.

Lemma commands_keep_guard msg :
  respects guard_kept (on_start msg)
  ∧ respects guard_kept (on_stop msg)
  ∧ respects guard_kept (on_status msg).
Proof.
  split_and!.
  - unfold on_start. apply respects_bind; [by apply respects_logger|].
    intros _. destruct (from msg); [|done].
    apply respects_bind; [by simpl|]. intros _.
    apply respects_bind; [by apply respects_logger|]. intros _.
    apply respects_bind; [by simpl|]. intros w.
    apply respects_bind; [|by intros _; apply respects_logger].
    by intros [|e].
  - unfold on_stop. apply respects_bind; [by apply respects_logger|].
    intros _. apply respects_bind; [by simpl|]. intros [|].
    + apply respects_bind; [by apply respects_logger|]. intros _.
      by intros [|e].
    + apply respects_bind; [by apply respects_logger|]. intros _.
      by intros [|e].
  - unfold on_status. apply respects_bind; [by simpl|]. intros [|].
    + apply respects_bind; [by apply respects_logger|]. intros _.
      apply respects_bind; [by simpl|]. intros w. by intros [|e].
    + apply respects_bind; [by apply respects_logger|]. intros _.
      by intros [|e].
Qed.

(** ** The run orchestrator and the retry timer *)

(** C4: when the query for an item of a pass fails, the item makes no call
    but that query, so none of the fan-out; its name is in the failed set,
    with which the loop goes on to the items after it; and the loop queries
    each of those, in their order, and returns. *)
Theorem failed_item_is_isolated (env : Env) (drug : string)
    (rest : list string) (w : World) (tr : list Event) (w1 : World)
    (tr1 : list Event) (e : Err.t) :
  exec env (checkDrug drug) w tr = (w1, tr1, Thrown e) →
  let w2 := set_apiErrorDrugs (Set_add drug)
              (add_log lvl_warn (add_log lvl_error (meanwhile env tr1 w1))) in
  tr1 = tr ++ [EvSearch drug (source env tr drug)]
  ∧ drug ∈ apiErrorDrugs w2
  ∧ exec env (check_each (drug :: rest)) w tr
    = exec env (check_each rest) w2 tr1
  ∧ ∃ w' evs,
      exec env (check_each rest) w2 tr1 = (w', tr1 ++ evs, Returned tt)
      ∧ searches evs = rest.
Proof.
  intros Hc w2. split_and!.
  - pose proof (checkDrug_trace env drug w tr) as Ht. by rewrite Hc in Ht.
  - apply elem_of_Set_add. by left.
  - by rewrite check_each_cons, (check_and_notify_failed _ _ _ _ _ _ _ Hc).
  - apply check_each_total.
Qed.

Lemma failed_item_is_isolated_witness :
  let env := Scenario.answering (Rejected Scenario.timeout) in
  let w := Scenario.world "A,B" [1] in
  let w1 := (exec env (checkDrug "A") w []).1.1 in
  let tr1 := (exec env (checkDrug "A") w []).1.2 in
  exec env (checkDrug "A") w [] = (w1, tr1, Thrown Scenario.timeout)
  ∧ "A" ∈ apiErrorDrugs
            (set_apiErrorDrugs (Set_add "A")
               (add_log lvl_warn
                  (add_log lvl_error (meanwhile env tr1 w1))))
  ∧ exec env (check_each ["A"; "B"]) w []
    = exec env (check_each ["B"])
        (set_apiErrorDrugs (Set_add "A")
           (add_log lvl_warn (add_log lvl_error (meanwhile env tr1 w1))))
        tr1.
Proof.
  intros env w w1 tr1. split; [reflexivity|].
  destruct (failed_item_is_isolated env "A" ["B"] w [] w1 tr1
              Scenario.timeout eq_refl) as (_ & Hin & Hstep & _).
  split; [exact Hin|exact Hstep].
Defined.

(** [scheduleRetryForErrors], run. *)
Lemma exec_scheduleRetryForErrors env w tr :
  exec env scheduleRetryForErrors w tr =
  (if (0 <? length (apiErrorDrugs w))%nat
   then set_retryTimer (Some (nextTimer w))
          (new_timer
             (add_log lvl_info
                (if retryTimer w is Some t
                 then set_timers (filter (fun t' => t' ≠ t)) w
                 else w)))
   else w,
   tr, Returned tt).
Proof.
  unfold scheduleRetryForErrors. rewrite exec_bind. simpl exec at 1.
  cbv beta iota. destruct (0 <? _)%nat; [|done].
  by destruct (retryTimer w).
Qed.

(** A pass queries every configured item, in order, whatever fails. *)
Lemma pass_queries_every_item env w tr :
  ∃ w' evs,
    exec env run_pass w tr = (w', tr ++ evs, Returned tt)
    ∧ searches evs = configured_drugs (DRUGS_TO_CHECK w).
Proof.
  unfold run_pass. rewrite exec_bind. simpl exec at 1. cbv beta iota.
  rewrite exec_bind. simpl exec at 1. cbv beta iota.
  do 3 rewrite exec_bind, exec_logger_info.
  rewrite exec_bind.
  edestruct (check_each_total env) as (w1 & evs & Heq & Hs).
  rewrite Heq, exec_bind, exec_logger_info. clear Heq.
  rewrite exec_scheduleRetryForErrors.
  eexists _, (EvGetActiveSubscribers (getActiveSubscribers (db w)) :: evs).
  rewrite <- !app_assoc. split; [done|].
  by change (searches (?a :: ?l)) with (searches l).
Qed.




(** C7: no step of the retry wave adds a name to the failed set or
    schedules a timer.  The wave queries each name that the set held when it
    began, once and in order, whatever the answers, and returns; and, no one
    else adding to the set meanwhile, it leaves the set empty and the timer
    as it found it. *)
Theorem retry_wave_is_final (env : Env) (w : World) (tr : list Event) :
  respects retry_is_over retry_callback
  ∧ ∃ w' evs,
      exec env retry_callback w tr = (w', tr ++ evs, Returned tt)
      ∧ searches evs = apiErrorDrugs w
      ∧ ((∀ tr w, retry_is_over w (meanwhile env tr w)) →
         apiErrorDrugs w' = []
         ∧ retryTimer w' = retryTimer w
         ∧ timers w' = timers w
         ∧ nextTimer w' = nextTimer w).
Proof.
  split; [apply retry_callback_is_over|].
  destruct (retry_callback_total env w tr) as (w' & evs & Hexec & Hs).
  exists w', evs. split_and!; try done. intros Hm.
  revert Hexec. unfold retry_callback.
  rewrite exec_bind. simpl exec at 1. cbv beta iota.
  destruct (apiErrorDrugs w) as [|d ds] eqn:Hset.
  { simpl. by intros [= <- _]. }
  cbn [length Nat.ltb Nat.leb].
  rewrite exec_bind, exec_logger_info, exec_bind, exec_modify.
  intros Hexec.
  pose proof (respects_exec retry_is_over env (retry_each (d :: ds))
                (set_apiErrorDrugs (fun _ => []) (add_log lvl_info w)) tr Hm)
    as Hover.
  rewrite Hexec in Hover. destruct Hover as (Hin & Ht & Hts & Hn).
  { by apply respects_retry_each. }
  simpl in Hin, Ht, Hts, Hn. split_and!; try done.
  destruct (apiErrorDrugs w') as [|x xs]; [done|].
  exfalso. apply (not_elem_of_nil x), Hin. by left.
Qed.

Lemma retry_wave_is_final_witness :
  ∃ w' evs,
    exec Scenario.alternating retry_callback Scenario.retry_pending []
    = (w', [] ++ evs, Returned tt)
    ∧ searches evs = apiErrorDrugs Scenario.retry_pending
    ∧ apiErrorDrugs w' = []
    ∧ timers w' = timers Scenario.retry_pending.
Proof.
  destruct (retry_wave_is_final Scenario.alternating Scenario.retry_pending [])
    as (_ & w' & evs & Hexec & Hs & Hfinal).
  destruct Hfinal as (Hset & _ & Ht & _).
  { intros tr w. apply retry_is_over_refl. }
  exists w', evs. split; [exact Hexec|]. split; [exact Hs|].
  split; [exact Hset|exact Ht].
Defined.

(** C6, as it fails: "A" fails in a first run and its retry is pending;
    a second run, in which "A" is found out and "B" fails, cancels the
    pending timer and sets a new one; when that fires, the wave retries "A"
    as well as "B", not the failures of the newest run alone. *)
Lemma superseded_items_are_retried :
  let '(w1, tr1, _) :=
    exec Scenario.alternating checkAllDrugs (Scenario.world "A,B" []) [] in
  let '(w2, tr2, _) := exec Scenario.alternating checkAllDrugs w1 tr1 in
  let '(w3, tr3, _) := exec Scenario.alternating (timer_fires 1) w2 tr2 in
  (apiErrorDrugs w1 = ["A"] ∧ timers w1 = [0%nat])
  ∧ rejected_searches (drop (length tr1) tr2) = ["B"]
  ∧ (timers w2 = [1%nat] ∧ retryTimer w2 = Some 1%nat)
  ∧ searches (drop (length tr2) tr3) = ["A"; "B"].
Proof. vm_compute. repeat split. Qed.

(** C6, amended: no step of a run takes a name out of the failed set.  When
    [scheduleRetryForErrors] finds the set not empty, it cancels the pending
    timer, if there is one, sets a new one and stores its handle, and leaves
    the set as it is; and the wave, when it runs, retries every name of the
    set: those of a superseded wave are still among them. *)
Theorem retry_is_rescheduled_with_all_failures (env : Env) (w : World)
    (tr : list Event) :
  apiErrorDrugs w ≠ [] →
  timers_fresh w →
  respects failures_kept checkAllDrugs
  ∧ ∃ w',
      exec env scheduleRetryForErrors w tr = (w', tr, Returned tt)
      ∧ apiErrorDrugs w' = apiErrorDrugs w
      ∧ retryTimer w' = Some (nextTimer w)
      ∧ timers w'
        = (if retryTimer w is Some t
           then filter (fun t' => t' ≠ t) (timers w)
           else timers w) ++ [nextTimer w]
      ∧ (∀ t, retryTimer w = Some t → t ∉ timers w')
      ∧ timers_fresh w'
      ∧ ∀ tr', ∃ w'' evs,
          exec env retry_callback w' tr' = (w'', tr' ++ evs, Returned tt)
          ∧ searches evs = apiErrorDrugs w.
Proof.
  intros Hne [Hfresh1 Hfresh2].
  split; [apply checkAllDrugs_keeps_failures|].
  rewrite exec_scheduleRetryForErrors.
  destruct (apiErrorDrugs w) as [|d ds] eqn:Hset; [done|].
  cbn [length Nat.ltb Nat.leb]. eexists. split; [reflexivity|].
  set (w' := set_retryTimer _ _).
  assert (apiErrorDrugs w' = d :: ds) as Hkept.
  { subst w'. by destruct (retryTimer w); simpl. }
  assert (timers w' = (if retryTimer w is Some t
                       then filter (fun t' => t' ≠ t) (timers w)
                       else timers w) ++ [nextTimer w]) as Htimers.
  { subst w'. by destruct (retryTimer w); simpl. }
  assert (nextTimer w' = S (nextTimer w)) as Hnext.
  { subst w'. by destruct (retryTimer w); simpl. }
  assert (retryTimer w' = Some (nextTimer w)) as Hhandle by done.
  split_and!; try done.
  - intros t Ht. rewrite Htimers, Ht.
    intros [[Hneq _]%list_elem_of_filter|Heq%list_elem_of_singleton]
           %elem_of_app; [done|].
    specialize (Hfresh1 t Ht). lia.
  - split.
    + intros t. rewrite Hhandle, Hnext. intros [= <-]. lia.
    + intros t. rewrite Htimers, Hnext.
      intros [Hin| ->%list_elem_of_singleton]%elem_of_app; [|lia].
      assert (t ∈ timers w) as Hin'.
      { destruct (retryTimer w); [|done].
        by apply list_elem_of_filter in Hin as [_ Hin]. }
      specialize (Hfresh2 t Hin'). lia.
  - intros tr'.
    destruct (retry_callback_total env w' tr') as (w'' & evs & Heq & Hs).
    exists w'', evs. split; [exact Heq|]. by rewrite Hs.
Qed.

Lemma retry_is_rescheduled_with_all_failures_witness :
  let w := Scenario.retry_pending in
  (apiErrorDrugs w = ["A"] ∧ retryTimer w = Some 0%nat ∧ timers w = [0%nat])
  ∧ ∃ w',
      exec Scenario.alternating scheduleRetryForErrors w [] = (w', [], Returned tt)
      ∧ apiErrorDrugs w' = apiErrorDrugs w
      ∧ retryTimer w' = Some (nextTimer w)
      ∧ (∀ t, retryTimer w = Some t → t ∉ timers w').
Proof.
  intros w. split; [by vm_compute|].
  assert (apiErrorDrugs w ≠ []) as Hne by (by vm_compute).
  assert (timers_fresh w) as Hfresh.
  { split; intros t; vm_compute.
    - intros [= <-]. lia.
    - intros ->%list_elem_of_singleton. lia. }
  destruct (retry_is_rescheduled_with_all_failures Scenario.alternating w []
              Hne Hfresh)
    as (_ & w' & Hexec & Hset & Hhandle & _ & Hgone & _).
  exists w'. by split_and!.
Defined.

(** [checkAllDrugs], run: behind the guard, one pass and the release of the
    guard. *)
Lemma exec_checkAllDrugs env w tr :
  exec env checkAllDrugs w tr =
  if isChecking w
  then (add_log lvl_warn w, tr, Returned tt)
  else exec env (try_finally run_pass (modify (set_isChecking false)))
         (set_isChecking true w) tr.
Proof.
  unfold checkAllDrugs. rewrite exec_bind. simpl exec at 1. cbv beta iota.
  destruct (isChecking w); [done|]. by rewrite exec_bind, exec_modify.
Qed.

(** C1: called while the guard is set, [checkAllDrugs] returns at once: it
    makes no call, so no query, and changes nothing in the world but the log,
    by one warning. *)
Theorem run_in_progress_is_skipped (env : Env) (w : World)
    (tr : list Event) :
  isChecking w = true →
  exec env checkAllDrugs w tr = (add_log lvl_warn w, tr, Returned tt).
Proof. intros Hg. by rewrite exec_checkAllDrugs, Hg. Qed.

Lemma run_in_progress_is_skipped_witness :
  let w := set_isChecking true (Scenario.world "A,B" [1]) in
  isChecking w = true
  ∧ exec (Scenario.all_found []) checkAllDrugs w []
    = (add_log lvl_warn w, [], Returned tt).
Proof.
  intros w. split; [reflexivity|].
  exact (run_in_progress_is_skipped (Scenario.all_found []) w [] eq_refl).
Defined.


(** X29: while the guard is set, no task that the event loop starts clears
    it: a further run request is skipped, and the timer's callback and the
    commands do not touch it. *)
Lemma guard_stays_set env trigger w tr :
  (∀ tr w, guard_kept w (meanwhile env tr w)) →
  isChecking w = true →
  isChecking (exec env (task trigger) w tr).1.1 = true.
Proof.
  intros Hm Hg. destruct trigger as [|t|msg|msg|msg|msg]; simpl task.
  - by rewrite exec_checkAllDrugs, Hg.
  - by rewrite (respects_exec guard_kept env _ _ tr Hm
                  (timer_fires_keeps_guard t)).
  - done.
  - by rewrite (respects_exec guard_kept env _ _ tr Hm
                  (proj1 (commands_keep_guard msg))).
  - by rewrite (respects_exec guard_kept env _ _ tr Hm
                  (proj1 (proj2 (commands_keep_guard msg)))).
  - by rewrite (respects_exec guard_kept env _ _ tr Hm
                  (proj2 (proj2 (commands_keep_guard msg)))).
Qed.

(** The query for "A" times out in the run: nothing is sent in the pass, and
    the wave issues one more query for "A", finds it out and sends one
    notification to the subscriber. *)
Example timeout_then_retry :
  let '(w1, tr1, _) :=
    exec Scenario.alternating checkAllDrugs (Scenario.world "A" [1]) [] in
  let '(w2, tr2, _) := exec Scenario.alternating (timer_fires 0) w1 tr1 in
  (searches tr1 = ["A"] ∧ deliveries tr1 = [] ∧ timers w1 = [0%nat])
  ∧ searches (drop (length tr1) tr2) = ["A"]
  ∧ deliveries tr2 = [(1, OutOfStock "A")]
  ∧ (apiErrorDrugs w2 = [] ∧ timers w2 = []).
Proof. vm_compute. repeat split. Qed.

(** Two pharmacies are found: the one notification says so, with both. *)
Example two_matches_notified :
  let env :=
    Scenario.all_found [Scenario.pharmacy "Apteka 1" "Mon-Fri 9-21 no break";
                        Scenario.pharmacy "Apteka 2" "daily"] in
  deliveries (exec env checkAllDrugs (Scenario.world "Pentasa" [1]) []).1.2
  = [(1, InStock "Pentasa" 2
           [{| storeName := JStr "Apteka 1"; storeAddress := JStr "Nevsky 1";
               storeDistrict := JStr "Central";
               storeWorkingTime := "Mon-Fri 9-21 no break";
               drugName := JStr "Pentasa 500" |};
            {| storeName := JStr "Apteka 2"; storeAddress := JStr "Nevsky 1";
               storeDistrict := JStr "Central";
               storeWorkingTime := "daily";
               drugName := JStr "Pentasa 500" |}])].
Proof. reflexivity. Qed.

(** * Further properties *)

(** ** The registry, call by call *)

Lemma last_action_new chat history action :
  last_action chat (history ++ [(chat, action)]) = Some action.
Proof.
  unfold last_action. rewrite filter_app, filter_singleton_True;
    [by rewrite last_snoc|..]; try done; exact [].
Qed.

Lemma last_action_other chat chat' history action :
  chat ≠ chat' →
  last_action chat (history ++ [(chat', action)]) = last_action chat history.
Proof.
  intros Hne. unfold last_action.
  rewrite filter_app, filter_singleton_False; [by rewrite app_nil_r|..];
    simpl; try congruence; exact [].
Qed.

Lemma tables_agree_addSubscriber s d :
  tables_agree d → tables_agree (addSubscriber s d).
Proof.
  intros Hd chat. simpl. destruct (decide (chat = chatId s)) as [->|Hne].
  - rewrite lookup_insert_eq, last_action_new. by left.
  - rewrite lookup_insert_ne, last_action_other by done. apply Hd.
Qed.

Lemma tables_agree_removeSubscriber c d :
  tables_agree d → tables_agree (removeSubscriber c d).1.
Proof.
  intros Hd chat. specialize (Hd chat).
  unfold removeSubscriber, statements.deactivateSubscriber.
  destruct (subscribers d !! c) as [row|] eqn:Hrow; simpl.
  - destruct (decide (chat = c)) as [->|Hne].
    + rewrite lookup_alter_eq, Hrow, last_action_new. by right.
    + by rewrite lookup_alter_ne, last_action_other.
  - destruct (decide (chat = c)) as [->|Hne].
    + rewrite lookup_alter_eq, Hrow. by rewrite Hrow in Hd.
    + by rewrite lookup_alter_ne.
Qed.

Lemma tables_agree_no_one : tables_agree Scenario.no_one.
Proof. intros chat. simpl. by rewrite lookup_empty. Qed.

Lemma tables_agree_foldl (calls : list RegistryCall) (d : Database) :
  tables_agree d → tables_agree (foldl registry_call d calls).
Proof.
  revert d. induction calls as [|call calls IH]; intros d Hd; [done|].
  simpl. apply IH. destruct call; simpl.
  - by apply tables_agree_addSubscriber.
  - by apply tables_agree_removeSubscriber.
Qed.

(** X1: the two tables of the registry agree, and every call of
    [addSubscriber] and of [removeSubscriber] keeps them so: a chat has a
    row exactly when the history holds an action for it, and its row is
    active, with [is_active] 1, when the last action was a subscription,
    and inactive, with [is_active] 0, when it was an unsubscription. *)
Theorem registry_tables_agree (calls : list RegistryCall) (d : Database) :
  tables_agree d → tables_agree (foldl registry_call d calls).
Proof. apply tables_agree_foldl. Qed.

Lemma registry_tables_agree_witness :
  tables_agree
    (foldl registry_call Scenario.no_one
       [Subscribe (Scenario.subscriber 1); Unsubscribe 1; Unsubscribe 2;
        Subscribe (Scenario.subscriber 2); Subscribe (Scenario.subscriber 1)]).
Proof.
  apply (registry_tables_agree _ Scenario.no_one). exact tables_agree_no_one.
Defined.

(** X2: [removeSubscriber] returns [true] exactly when the chat has a row;
    in either case the chat is not subscribed afterwards, any other chat is
    subscribed exactly if it was, and no row is lost. *)
Theorem removeSubscriber_effect (c : Z) (d : Database) :
  ((removeSubscriber c d).2 = true ↔ is_Some (subscribers d !! c))
  ∧ isSubscribed c (removeSubscriber c d).1 = false
  ∧ (∀ c', c' ≠ c →
       isSubscribed c' (removeSubscriber c d).1 = isSubscribed c' d)
  ∧ (∀ c', is_Some (subscribers (removeSubscriber c d).1 !! c')
           ↔ is_Some (subscribers d !! c')).
Proof.
  split_and!.
  - apply removeSubscriber_result.
  - rewrite isSubscribed_removeSubscriber. by rewrite decide_True.
  - intros c' Hne. rewrite isSubscribed_removeSubscriber.
    by rewrite decide_False.
  - intros c'. unfold removeSubscriber, statements.deactivateSubscriber.
    destruct (0 <? _); simpl; rewrite lookup_alter, <- !not_eq_None_Some;
      case_decide; subst; by destruct (subscribers d !! c').
Qed.

(** X3: [addSubscriber] changes the row of its own chat only: any other
    chat keeps its row and is subscribed exactly if it was. *)
Theorem addSubscriber_leaves_others (s : Subscriber) (d : Database) (c : Z) :
  c ≠ chatId s →
  subscribers (addSubscriber s d) !! c = subscribers d !! c
  ∧ isSubscribed c (addSubscriber s d) = isSubscribed c d.
Proof.
  intros Hne.
  assert (subscribers (addSubscriber s d) !! c = subscribers d !! c) as Hrow.
  { simpl. by rewrite lookup_insert_ne. }
  split; [done|].
  unfold isSubscribed, statements.checkSubscriber. by rewrite Hrow.
Qed.

Lemma addSubscriber_leaves_others_witness :
  isSubscribed 1 (addSubscriber (Scenario.subscriber 2)
                    (Scenario.registry [1]))
  = isSubscribed 1 (Scenario.registry [1]).
Proof.
  apply (addSubscriber_leaves_others (Scenario.subscriber 2)
           (Scenario.registry [1]) 1).
  simpl. lia.
Defined.

(** ** The registry, read *)

#[local] Instance rowid_le_trans : Transitive rowid_le.
Proof. unfold rowid_le. intros a b c. lia. Qed.

#[local] Instance rowid_le_total : Total rowid_le.
Proof. unfold rowid_le. intros a b. lia. Qed.

Lemma scan_keys_NoDup d : NoDup (scan d).*1.
Proof.
  unfold scan. rewrite merge_sort_Permutation. apply NoDup_fst_map_to_list.
Qed.

Lemma scan_sorted d : StronglySorted rowid_le (scan d).
Proof. apply StronglySorted_merge_sort; apply _. Qed.

Lemma increasing_keys (l : list (Z * DbRow.t)) :
  StronglySorted rowid_le l → NoDup l.*1 →
  StronglySorted (fun a b => a.1 < b.1) l.
Proof.
  induction 1 as [|a l Hl IH Ha]; intros Hnd; [constructor|].
  apply NoDup_cons in Hnd as [Hnotin Hnd]. constructor; [by apply IH|].
  apply Forall_forall. intros b Hb.
  assert (a.1 ≠ b.1).
  { intros Heq. apply Hnotin. rewrite Heq. by apply list_elem_of_fmap_2. }
  rewrite Forall_forall in Ha. specialize (Ha b Hb). unfold rowid_le in Ha.
  lia.
Qed.

Lemma StronglySorted_filter_keep {A} (R : relation A) (P : A → Prop)
    `{∀ x, Decision (P x)} (l : list A) :
  StronglySorted R l → StronglySorted R (filter P l).
Proof.
  induction 1 as [|a l Hl IH Ha]; [constructor|].
  rewrite filter_cons. case_decide; [|done].
  constructor; [done|]. rewrite Forall_forall in *.
  intros b [_ Hb]%list_elem_of_filter. by apply Ha.
Qed.

(** X4: [getActiveSubscribers] lists the chats for which [isSubscribed]
    holds, and each of them once. *)
Theorem getActiveSubscribers_lists_subscribed (d : Database) :
  (∀ c, c ∈ map chatId (getActiveSubscribers d) ↔ isSubscribed c d = true)
  ∧ NoDup (map chatId (getActiveSubscribers d)).
Proof.
  assert (StronglySorted Z.lt (map chatId (getActiveSubscribers d))) as Hs.
  { unfold getActiveSubscribers, statements.getActiveSubscribers.
    rewrite map_map. simpl.
    apply (StronglySorted_fmap _ (fun a b : Z * DbRow.t => a.1 < b.1));
      [done|].
    apply StronglySorted_filter_keep, increasing_keys;
      [apply scan_sorted|apply scan_keys_NoDup]. }
  split.
  - intros c. rewrite isSubscribed_spec. split.
    + intros (s & -> & (c' & r & Hr & Ha & ->)%elem_of_getActiveSubscribers)
             %list_elem_of_fmap.
      by exists r.
    + intros (r & Hr & Ha). apply list_elem_of_fmap.
      exists {| chatId := c;
                username := or_missing (DbRow.username r);
                firstName := or_missing (DbRow.first_name r);
                lastName := or_missing (DbRow.last_name r) |}.
      split; [done|]. apply elem_of_getActiveSubscribers. by exists c, r.
  - clear -Hs. induction Hs as [|a l Hl IH Ha]; constructor; [|done].
    intros Hin. rewrite Forall_forall in Ha. specialize (Ha a Hin). lia.
Qed.

Lemma count_split {A} (P Q : A → Prop) `{∀ x, Decision (P x)}
    `{∀ x, Decision (Q x)} (l : list A) :
  Forall (fun x => (P x ∧ ¬ Q x) ∨ (Q x ∧ ¬ P x)) l →
  length l = (length (filter P l) + length (filter Q l))%nat.
Proof.
  induction 1 as [|x l Hx _ IH]; [done|].
  rewrite !filter_cons. simpl.
  destruct Hx as [[HP HQ]|[HQ HP]]; repeat case_decide; try done; simpl; lia.
Qed.

(** X5: in a registry whose tables agree, [getStatistics] counts every row
    as active or as inactive: the total is the sum of the two, and the
    active count is the length of [getActiveSubscribers]. *)
Theorem getStatistics_adds_up (d : Database) :
  tables_agree d →
  total_count (getStatistics d)
  = (active_count (getStatistics d) + inactive_count (getStatistics d))%nat
  ∧ active_count (getStatistics d) = length (getActiveSubscribers d).
Proof.
  intros Hd. split.
  - unfold getStatistics. simpl. apply count_split.
    apply Forall_forall. intros [c r] Hin%elem_of_scan.
    specialize (Hd c). rewrite Hin in Hd. simpl.
    destruct Hd as [[Ha _]|[Ha _]]; rewrite Ha; [left|right]; done.
  - unfold getStatistics, getActiveSubscribers,
      statements.getActiveSubscribers. simpl. by rewrite length_map.
Qed.

Lemma getStatistics_adds_up_witness :
  let d := foldl registry_call Scenario.no_one
             [Subscribe (Scenario.subscriber 1); Unsubscribe 1;
              Subscribe (Scenario.subscriber 2)] in
  total_count (getStatistics d)
  = (active_count (getStatistics d) + inactive_count (getStatistics d))%nat
  ∧ active_count (getStatistics d) = length (getActiveSubscribers d).
Proof.
  intros d. apply (getStatistics_adds_up d).
  apply tables_agree_foldl, tables_agree_no_one.
Defined.

Lemma count_rows_at (P : Z * DbRow.t → Prop) `{∀ x, Decision (P x)}
    (m : gmap Z DbRow.t) (c : Z) :
  length (filter P (map_to_list m))
  = ((match m !! c with
      | Some r => if decide (P (c, r)) then 1 else 0
      | None => 0
      end) + length (filter P (map_to_list (delete c m))))%nat.
Proof.
  destruct (m !! c) as [r|] eqn:Hr.
  - rewrite <- (map_to_list_delete m c r Hr) at 1. rewrite filter_cons.
    by case_decide.
  - by rewrite delete_id.
Qed.

Lemma count_scan (P : Z * DbRow.t → Prop) `{∀ x, Decision (P x)} d :
  length (filter P (scan d)) = length (filter P (map_to_list (subscribers d))).
Proof. unfold scan. by rewrite merge_sort_Permutation. Qed.

Lemma length_scan d : length (scan d) = length (filter (fun _ => True) (scan d)).
Proof.
  induction (scan d) as [|x l IH]; [done|].
  rewrite filter_cons. simpl. by rewrite <- IH.
Qed.

(** The counts of [getStatistics], with the row of one chat set apart. *)
Lemma getStatistics_at (d : Database) (c : Z) :
  let rest := map_to_list (delete c (subscribers d)) in
  active_count (getStatistics d)
  = ((match subscribers d !! c with
      | Some r => if decide (DbRow.is_active r = 1%Z) then 1 else 0
      | None => 0
      end)
     + length (filter (fun kr => DbRow.is_active kr.2 = 1%Z) rest))%nat
  ∧ inactive_count (getStatistics d)
    = ((match subscribers d !! c with
        | Some r => if decide (DbRow.is_active r = 0%Z) then 1 else 0
        | None => 0
        end)
       + length (filter (fun kr => DbRow.is_active kr.2 = 0%Z) rest))%nat
  ∧ total_count (getStatistics d)
    = ((match subscribers d !! c with Some r => 1 | None => 0 end)
       + length (filter (fun _ => True) rest))%nat.
Proof.
  intros rest. unfold getStatistics. simpl.
  rewrite length_scan, !count_scan.
  rewrite (count_rows_at (fun kr => DbRow.is_active kr.2 = 1) _ c).
  rewrite (count_rows_at (fun kr => DbRow.is_active kr.2 = 0) _ c).
  rewrite (count_rows_at (fun _ => True) _ c).
  subst rest. simpl. by destruct (subscribers d !! c).
Qed.

(** X6: [addSubscriber] and the statistics.  A chat without a row adds one
    to the total and to the active count; an inactive chat moves from the
    inactive to the active count; an active chat changes no count. *)
Theorem addSubscriber_statistics (s : Subscriber) (d : Database) :
  tables_agree d →
  let before := getStatistics d in
  let after := getStatistics (addSubscriber s d) in
  match subscribers d !! chatId s with
  | None =>
      total_count after = S (total_count before)
      ∧ active_count after = S (active_count before)
      ∧ inactive_count after = inactive_count before
  | Some _ =>
      total_count after = total_count before
      ∧ if isSubscribed (chatId s) d
        then active_count after = active_count before
             ∧ inactive_count after = inactive_count before
        else active_count after = S (active_count before)
             ∧ S (inactive_count after) = inactive_count before
  end.
Proof.
  intros Hd before after. specialize (Hd (chatId s)).
  destruct (getStatistics_at d (chatId s)) as (Ha & Hi & Ht).
  destruct (getStatistics_at (addSubscriber s d) (chatId s))
    as (Ha' & Hi' & Ht').
  rewrite addSubscriber_row in Ha', Hi', Ht'.
  assert (delete (chatId s) (subscribers (addSubscriber s d))
          = delete (chatId s) (subscribers d)) as Hrest.
  { simpl. apply delete_insert_eq. }
  rewrite Hrest in Ha', Hi', Ht'.
  change (getStatistics d) with before in Ha, Hi, Ht.
  change (getStatistics (addSubscriber s d)) with after in Ha', Hi', Ht'.
  clearbody before after. simpl in Ha', Hi', Ht'.
  rewrite Ha', Hi', Ht', Ha, Hi, Ht.
  unfold isSubscribed, statements.checkSubscriber.
  destruct (subscribers d !! chatId s) as [r|]; simpl; [|done].
  destruct Hd as [[Hr _]|[Hr _]]; rewrite Hr; simpl; done.
Qed.

Lemma addSubscriber_statistics_witness :
  let d := (removeSubscriber 1 (Scenario.registry [1; 2])).1 in
  total_count (getStatistics (addSubscriber (Scenario.subscriber 1) d))
  = total_count (getStatistics d)
  ∧ active_count (getStatistics (addSubscriber (Scenario.subscriber 1) d))
    = S (active_count (getStatistics d)).
Proof.
  intros d.
  assert (tables_agree d) as Hd.
  { apply (tables_agree_foldl
             [Subscribe (Scenario.subscriber 1);
              Subscribe (Scenario.subscriber 2); Unsubscribe 1]),
      tables_agree_no_one. }
  pose proof (addSubscriber_statistics (Scenario.subscriber 1) d Hd) as H.
  simpl in H. destruct H as [Ht [Ha _]]. by split.
Defined.

(** X7: [removeSubscriber] and the statistics.  The total stays; an active
    chat moves from the active to the inactive count; for any other chat no
    count changes. *)
Theorem removeSubscriber_statistics (c : Z) (d : Database) :
  tables_agree d →
  let before := getStatistics d in
  let after := getStatistics (removeSubscriber c d).1 in
  total_count after = total_count before
  ∧ if isSubscribed c d
    then S (active_count after) = active_count before
         ∧ inactive_count after = S (inactive_count before)
    else active_count after = active_count before
         ∧ inactive_count after = inactive_count before.
Proof.
  intros Hd before after. specialize (Hd c).
  destruct (getStatistics_at d c) as (Ha & Hi & Ht).
  destruct (getStatistics_at (removeSubscriber c d).1 c) as (Ha' & Hi' & Ht').
  assert (subscribers (removeSubscriber c d).1
          = alter (fun r => {| DbRow.username := DbRow.username r;
                               DbRow.first_name := DbRow.first_name r;
                               DbRow.last_name := DbRow.last_name r;
                               DbRow.is_active := 0 |}) c (subscribers d))
    as Hrows.
  { unfold removeSubscriber, statements.deactivateSubscriber.
    by destruct (0 <? _). }
  rewrite Hrows, lookup_alter_eq, delete_alter_eq in Ha', Hi', Ht'.
  change (getStatistics d) with before in Ha, Hi, Ht.
  change (getStatistics (removeSubscriber c d).1) with after in Ha', Hi', Ht'.
  clearbody before after. rewrite Ha', Hi', Ht', Ha, Hi, Ht.
  unfold isSubscribed, statements.checkSubscriber.
  destruct (subscribers d !! c) as [r|]; simpl; [|done].
  destruct Hd as [[Hr _]|[Hr _]]; rewrite Hr; simpl; done.
Qed.

Lemma removeSubscriber_statistics_witness :
  let d := Scenario.registry [1; 2] in
  total_count (getStatistics (removeSubscriber 1 d).1)
  = total_count (getStatistics d)
  ∧ S (active_count (getStatistics (removeSubscriber 1 d).1))
    = active_count (getStatistics d).
Proof.
  intros d.
  assert (tables_agree d) as Hd.
  { apply (tables_agree_foldl
             [Subscribe (Scenario.subscriber 1);
              Subscribe (Scenario.subscriber 2)]),
      tables_agree_no_one. }
  pose proof (removeSubscriber_statistics 1 d Hd) as H.
  simpl in H. destruct H as [Ht [Ha _]]. by split.
Defined.

(** ** The configuration *)

Section validateConfig_facts.
Context (cron_validate : string → bool).

Lemma config_errors_nil env :
  config_errors cron_validate env = [] ↔
  is_Some (or_missing (Config.TELEGRAM_BOT_TOKEN env))
  ∧ is_Some (or_missing (Config.DRUGS_TO_CHECK env))
  ∧ ∃ schedule, or_missing (Config.CRON_SCHEDULE env) = Some schedule
                ∧ cron_validate schedule = true.
Proof.
  unfold config_errors.
  destruct (or_missing (Config.TELEGRAM_BOT_TOKEN env)) as [t|],
    (or_missing (Config.DRUGS_TO_CHECK env)) as [d|],
    (or_missing (Config.CRON_SCHEDULE env)) as [s|]; simpl;
    try destruct (cron_validate s) eqn:Hs; simpl;
    split; try done; try (by intros (? & ? & ? & ? & ?));
    try (by intros ([? ?] & _)); try (by intros (_ & [? ?] & _)).
  - intros _. split_and!; eauto.
  - intros (_ & _ & s' & [= <-] & Hs'). congruence.
Qed.

Lemma validateConfig_starts env :
  (validateConfig cron_validate env).2 = None ↔
  is_Some (or_missing (Config.TELEGRAM_BOT_TOKEN env))
  ∧ is_Some (or_missing (Config.DRUGS_TO_CHECK env))
  ∧ ∃ schedule, or_missing (Config.CRON_SCHEDULE env) = Some schedule
                ∧ cron_validate schedule = true.
Proof.
  rewrite <- config_errors_nil. unfold validateConfig.
  by destruct (config_errors cron_validate env).
Qed.

(** X8: [validateConfig] lets the process go on exactly when the token, the
    list of drugs and the schedule are all set and not empty and the schedule
    is a valid cron expression; otherwise it ends the process with code 1. *)
Theorem validateConfig_passes (env : Config.t) :
  ((validateConfig cron_validate env).2 = None ↔
   is_Some (or_missing (Config.TELEGRAM_BOT_TOKEN env))
   ∧ is_Some (or_missing (Config.DRUGS_TO_CHECK env))
   ∧ ∃ schedule, or_missing (Config.CRON_SCHEDULE env) = Some schedule
                 ∧ cron_validate schedule = true)
  ∧ ((validateConfig cron_validate env).2 = None
     ∨ (validateConfig cron_validate env).2 = Some 1).
Proof.
  split; [apply validateConfig_starts|]. unfold validateConfig.
  destruct (config_errors cron_validate env); simpl; by (left + right).
Qed.

(** X9: [validateConfig] reports every violation, not the first one only:
    each missing variable has its line, an invalid schedule has its line
    exactly when the schedule is set, and when it ends the process it has
    logged one error line for the heading and one for each violation. *)
Theorem validateConfig_reports_all (env : Config.t) :
  let errors := config_errors cron_validate env in
  (token_not_found ∈ errors
   ↔ or_missing (Config.TELEGRAM_BOT_TOKEN env) = None)
  ∧ (drugs_not_found ∈ errors
     ↔ or_missing (Config.DRUGS_TO_CHECK env) = None)
  ∧ (schedule_not_found ∈ errors
     ↔ or_missing (Config.CRON_SCHEDULE env) = None)
  ∧ (∀ schedule,
       schedule_not_valid schedule ∈ errors
       ↔ or_missing (Config.CRON_SCHEDULE env) = Some schedule
         ∧ cron_validate schedule = false)
  ∧ (errors ≠ [] →
     validateConfig cron_validate env
     = (replicate (S (length errors)) lvl_error, Some 1)).
Proof.
  intros errors. subst errors. unfold validateConfig, config_errors.
  destruct (or_missing (Config.TELEGRAM_BOT_TOKEN env)) as [t|],
    (or_missing (Config.DRUGS_TO_CHECK env)) as [d|],
    (or_missing (Config.CRON_SCHEDULE env)) as [s|]; simpl;
    try destruct (cron_validate s) eqn:Hs; simpl;
    (split_and!; [..|done]);
    try intros schedule;
    rewrite ?elem_of_cons, ?elem_of_nil;
    split; try done; try tauto; try (intuition congruence).
Qed.

(** X10: once [validateConfig] has passed, the list of drugs of a run is
    that of [DRUGS_TO_CHECK], split at its commas and trimmed: the built-in
    name is not used. *)
Theorem validated_drugs_are_configured (env : Config.t) :
  (validateConfig cron_validate env).2 = None →
  ∃ drugs, Config.DRUGS_TO_CHECK env = Some drugs
           ∧ drugs ≠ ""
           ∧ configured_drugs (Config.DRUGS_TO_CHECK env)
             = map trim (split "," drugs).
Proof.
  intros (_ & [d Hd] & _)%validateConfig_starts.
  unfold configured_drugs. rewrite Hd.
  destruct (Config.DRUGS_TO_CHECK env) as [drugs|]; [|done].
  simpl in Hd. exists drugs. destruct (String.eqb_spec drugs ""); [done|].
  by injection Hd as <-.
Qed.

End validateConfig_facts.

Lemma validated_drugs_are_configured_witness :
  let env := {| Config.TELEGRAM_BOT_TOKEN := Some "123:abc";
                Config.DRUGS_TO_CHECK := Some "Pentasa, Salofalk";
                Config.CRON_SCHEDULE := Some "0 9 * * *" |} in
  ∃ drugs, Config.DRUGS_TO_CHECK env = Some drugs
           ∧ drugs ≠ ""
           ∧ configured_drugs (Config.DRUGS_TO_CHECK env)
             = map trim (split "," drugs).
Proof.
  intros env. apply (validated_drugs_are_configured (fun _ => true) env).
  reflexivity.
Defined.

(** ** The strings of the configuration *)

Lemma append_assoc (a b c : string) : (a +:+ b) +:+ c = a +:+ (b +:+ c).
Proof.
  induction a as [|x a IH]; [done|].
  change (String x ((a +:+ b) +:+ c) = String x (a +:+ (b +:+ c))).
  by f_equal.
Qed.

Lemma fold_join sep (parts : list string) (a b : string) :
  fold_left (fun acc q => acc +:+ sep +:+ q) parts (a +:+ b)
  = a +:+ fold_left (fun acc q => acc +:+ sep +:+ q) parts b.
Proof.
  revert b. induction parts as [|p parts IH]; intros b; simpl; [done|].
  by rewrite append_assoc, IH.
Qed.

Lemma join_cons sep p q parts :
  join sep (p :: q :: parts) = p +:+ sep +:+ join sep (q :: parts).
Proof. simpl. by rewrite !fold_join. Qed.

Lemma join_push sep c p parts :
  join sep (String c p :: parts) = String c (join sep (p :: parts)).
Proof.
  destruct parts as [|q parts]; [done|].
  by rewrite !join_cons.
Qed.

Lemma split_not_nil sep s : split sep s ≠ [].
Proof.
  destruct s as [|c s]; simpl; [done|].
  destruct (Ascii.eqb c sep); [done|]. by destruct (split sep s).
Qed.

(** [split] cuts a string at each separator and nowhere else: no piece holds
    the separator, there is one piece more than there are separators, and
    the pieces joined by the separator are the string again. *)
Lemma split_spec (sep : ascii) (s : string) :
  Forall (fun piece => occurrences sep piece = 0%nat) (split sep s)
  ∧ length (split sep s) = S (occurrences sep s)
  ∧ join (String sep "") (split sep s) = s.
Proof.
  induction s as [|c s (IHf & IHl & IHj)]; [by repeat constructor|].
  simpl. destruct (Ascii.eqb c sep) eqn:Hc.
  - apply Ascii.eqb_eq in Hc as ->. split_and!.
    + by constructor.
    + simpl. by rewrite IHl.
    + pose proof (split_not_nil sep s) as Hne.
      destruct (split sep s) as [|p ps]; [done|].
      rewrite join_cons, IHj. done.
  - pose proof (split_not_nil sep s) as Hne.
    destruct (split sep s) as [|p ps]; [done|]. split_and!.
    + apply Forall_cons in IHf as [Hp Hps]. constructor; [|done].
      simpl. by rewrite Hc.
    + done.
    + by rewrite join_push, IHj.
Qed.

(** X12: a run has one drug to check more than [DRUGS_TO_CHECK] has commas,
    so at least one; an entry between two commas is kept, empty as it
    is. *)
Theorem configured_drugs_count (drugs : string) :
  drugs ≠ "" →
  length (configured_drugs (Some drugs)) = S (occurrences "," drugs)
  ∧ configured_drugs (Some drugs) ≠ [].
Proof.
  intros Hne. unfold configured_drugs. simpl.
  destruct (String.eqb_spec drugs ""); [done|]. simpl.
  rewrite length_map.
  destruct (split_spec "," drugs) as (_ & Hl & _).
  split; [done|]. intros Hnil. apply (f_equal length) in Hnil.
  rewrite length_map, Hl in Hnil. done.
Qed.

Lemma configured_drugs_count_witness :
  length (configured_drugs (Some "A,,B")) = 3%nat
  ∧ configured_drugs (Some "A,,B") = ["A"; ""; "B"].
Proof.
  split; [|reflexivity].
  apply (configured_drugs_count "A,,B"). done.
Defined.

Lemma append_empty_r (s : string) : s +:+ "" = s.
Proof.
  induction s as [|c s IH]; [done|].
  change (String c (s +:+ "") = String c s). by rewrite IH.
Qed.

Lemma join_take_prefix sep (parts : list string) (n : nat) :
  ∃ rest, join sep parts = join sep (take n parts) +:+ rest.
Proof.
  revert n. induction parts as [|p parts IH]; intros n.
  { exists "". by rewrite take_nil. }
  destruct n as [|n]; [by exists (join sep (p :: parts))|].
  destruct parts as [|q parts].
  { exists "". simpl. by rewrite take_nil, append_empty_r. }
  destruct n as [|n].
  { exists (sep +:+ join sep (q :: parts)). by rewrite join_cons. }
  destruct (IH (S n)) as [rest Hrest].
  exists rest. change (take (S (S n)) (p :: q :: parts))
    with (p :: q :: take n parts).
  rewrite !join_cons.
  change (take (S n) (q :: parts)) with (q :: take n parts) in Hrest.
  by rewrite Hrest, !append_assoc.
Qed.

(** X13: the opening hours that a message shows are the beginning of
    [storeWorkingTime], and the whole of it when it has at most three
    spaces. *)
Theorem first_four_words_cuts (hours : string) :
  (∃ rest, hours = first_four_words hours +:+ rest)
  ∧ ((occurrences " " hours ≤ 3)%nat → first_four_words hours = hours).
Proof.
  destruct (split_spec " " hours) as (_ & Hl & Hj).
  unfold first_four_words. split.
  - destruct (join_take_prefix " " (split " " hours) 4) as [rest Hrest].
    exists rest. by rewrite <- Hrest.
  - intros Hocc. rewrite take_ge; [done|]. rewrite Hl. lia.
Qed.

(** ** The availability client, further *)

#[local] Instance same_engine_refl : Reflexive same_engine.
Proof. by intros w. Qed.

#[local] Instance same_engine_trans : Transitive same_engine.
Proof.
  unfold same_engine.
  intros w1 w2 w3 (?&?&?&?&?&?) (?&?&?&?&?&?). split_and!; congruence.
Qed.

#[local] Instance same_registry_refl : Reflexive same_registry.
Proof. by intros w. Qed.

#[local] Instance same_registry_trans : Transitive same_registry.
Proof. unfold same_registry. intros w1 w2 w3 H1 H2. congruence. Qed.

Lemma checkDrug_throws_on_failure env drugName w tr :
  QueryFailed (source env tr drugName) →
  ∃ e, (exec env (checkDrug drugName) w tr).2 = Thrown e.
Proof.
  intros Hq. inversion Hq as [e He|s d Hf He|s d Hm He|s d l Hm Hn He];
    symmetry in He.
  - destruct (checkDrug_rejected env drugName w tr e He) as [w' ->].
    by eexists.
  - destruct (checkDrug_explicit_failure env drugName w tr s d He Hf)
      as (w' & e & ->). by eexists.
  - destruct (checkDrug_unparseable env drugName w tr s d He Hm)
      as (w' & e & ->). by eexists.
  - destruct (checkDrug_null_record env drugName w tr s d l He Hm Hn)
      as (w' & e & ->). by eexists.
Qed.


(** X15: whatever it is answered, [checkDrug] makes one call, the query for
    its item; none of its steps changes the engine's variables or the
    registry; and when the request is rejected, it throws the very error of
    the rejection. *)
Theorem checkDrug_makes_one_request (env : Env) (drugName : string)
    (w : World) (tr : list Event) :
  (exec env (checkDrug drugName) w tr).1.2
  = tr ++ [EvSearch drugName (source env tr drugName)]
  ∧ respects (fun w w' => same_engine w w' ∧ same_registry w w')
             (checkDrug drugName)
  ∧ (∀ error, source env tr drugName = Rejected error →
              (exec env (checkDrug drugName) w tr).2 = Thrown error).
Proof.
  split_and!.
  - apply checkDrug_trace.
  - by apply respects_checkDrug.
  - intros error He.
    by destruct (checkDrug_rejected env drugName w tr error He) as [w' ->].
Qed.

(** ** The fan-out, further *)

(** X16: with no active subscriber, [sendNotificationToSubscribers] reads
    the registry, logs twice and returns, whatever the result is: the
    message is not built, so a result that cannot be shown does not make it
    throw. *)
Theorem fanout_without_recipients (env : Env) (drugName : string)
    (result : DrugCheckResult) (w : World) (tr : list Event) :
  getActiveSubscribers (db w) = [] →
  exec env (sendNotificationToSubscribers drugName result) w tr
  = (add_log lvl_info (add_log lvl_info w),
     tr ++ [EvGetActiveSubscribers []], Returned tt).
Proof.
  intros Hnone. unfold sendNotificationToSubscribers.
  rewrite exec_bind. simpl exec at 1. rewrite Hnone. cbv beta iota.
  by rewrite exec_bind, exec_logger_info.
Qed.

Lemma fanout_without_recipients_witness :
  getActiveSubscribers (db (Scenario.world "A" [])) = []
  ∧ exec (Scenario.all_found [Scenario.no_hours])
      (sendNotificationToSubscribers "A"
         {| isAvailable := true; pharmacyCount := Some 1%nat;
            pharmacies := Some [Scenario.no_hours] |})
      (Scenario.world "A" []) []
    = (add_log lvl_info (add_log lvl_info (Scenario.world "A" [])),
       [] ++ [EvGetActiveSubscribers []], Returned tt).
Proof.
  split; [reflexivity|].
  apply (fanout_without_recipients (Scenario.all_found [Scenario.no_hours])).
  reflexivity.
Defined.

Lemma exec_sendNotification_unformattable env drugName result w tr :
  formattable result = false →
  getActiveSubscribers (db w) ≠ [] →
  exec env (sendNotificationToSubscribers drugName result) w tr
  = (add_log lvl_info w,
     tr ++ [EvGetActiveSubscribers (getActiveSubscribers (db w))],
     Thrown TypeError).
Proof.
  intros Hf Hsome. unfold sendNotificationToSubscribers.
  rewrite exec_bind. simpl exec at 1. cbv beta iota.
  rewrite exec_bind, exec_logger_info.
  destruct (getActiveSubscribers (db w)) as [|s rest] eqn:Hsubs; [done|].
  cbn [length Nat.eqb].
  pose proof (exec_build_message env drugName result) as Hb.
  rewrite Hf in Hb. by rewrite exec_bind, Hb.
Qed.

(** X17: when the result cannot be shown (it is available and one of its
    pharmacies is [null] or has no opening hours) and there is a recipient,
    [sendNotificationToSubscribers] throws a [TypeError] after it has read
    the registry: nothing is sent to anyone, and no one is deactivated. *)
Theorem fanout_throws_before_first_delivery (env : Env) (drugName : string)
    (result : DrugCheckResult) (w : World) (tr : list Event) :
  formattable result = false →
  getActiveSubscribers (db w) ≠ [] →
  ∃ w' tr',
    exec env (sendNotificationToSubscribers drugName result) w tr
    = (w', tr', Thrown TypeError)
    ∧ tr' = tr ++ [EvGetActiveSubscribers (getActiveSubscribers (db w))]
    ∧ db w' = db w
    ∧ same_engine w w'.
Proof.
  intros Hf Hsome.
  rewrite exec_sendNotification_unformattable by done.
  by eexists _, _.
Qed.

Lemma fanout_throws_before_first_delivery_witness :
  ∃ w' tr',
    exec (Scenario.all_found [Scenario.no_hours])
      (sendNotificationToSubscribers "A"
         {| isAvailable := true; pharmacyCount := Some 1%nat;
            pharmacies := Some [Scenario.no_hours] |})
      (Scenario.world "A" [1; 2]) []
    = (w', tr', Thrown TypeError)
    ∧ tr' = [] ++ [EvGetActiveSubscribers
                     (getActiveSubscribers (db (Scenario.world "A" [1; 2])))]
    ∧ db w' = db (Scenario.world "A" [1; 2])
    ∧ same_engine (Scenario.world "A" [1; 2]) w'.
Proof.
  apply (fanout_throws_before_first_delivery
           (Scenario.all_found [Scenario.no_hours])).
  - reflexivity.
  - vm_compute. discriminate.
Defined.

(** ** Checking an item and notifying of it *)

Section notify.
Context (env : Env).

Lemma exec_format_pharmacies_length l w tr w' tr' entries :
  exec env (format_pharmacies l) w tr = (w', tr', Returned entries) →
  length entries = length l.
Proof.
  revert w tr w' tr' entries.
  induction l as [|p l IH]; intros w tr w' tr' entries; simpl.
  { by intros [= _ _ <-]. }
  rewrite exec_bind.
  pose proof (exec_format_pharmacy env p) as Hp.
  destruct (presentable p); [|by rewrite Hp].
  destruct Hp as [entry Hp]. rewrite Hp, exec_bind.
  destruct (exec env (format_pharmacies l) w tr) as [[w1 tr1] [es|e]] eqn:Hl;
    [|done].
  cbv beta iota. simpl exec. intros [= _ _ <-]. simpl. f_equal.
  by eapply IH.
Qed.

Lemma presentable_not_nullish p : presentable p = true → nullish p = false.
Proof. unfold presentable. by destruct (nullish p). Qed.

(** The message for a result that [checkDrug] has returned. *)
Lemma build_message_checked drugName (matches : list JsValue) :
  Forall (fun p => presentable p = true) (firstn 3 matches) →
  ∃ message,
    (∀ w tr,
       exec env (build_message drugName
                   {| isAvailable := (0 <? length matches)%nat;
                      pharmacyCount := Some (length matches);
                      pharmacies := Some (firstn 3 matches) |}) w tr
       = (w, tr, Returned message))
    ∧ (if decide (matches = []) then message = OutOfStock drugName
       else ∃ entries,
              message = InStock drugName (length matches) entries
              ∧ length entries = (length matches `min` 3)%nat).
Proof.
  intros Hp. destruct matches as [|p l]; [by eexists|].
  case_decide; [done|]. unfold build_message.
  cbn [isAvailable pharmacyCount pharmacies length Nat.ltb Nat.leb].
  pose proof (exec_format_pharmacies env (firstn 3 (p :: l))) as Hf.
  rewrite (proj2 (forallb_forall _ _)) in Hf; last first.
  { intros x Hx%list_elem_of_In. by eapply Forall_forall in Hp. }
  destruct Hf as [entries Hf]. exists (InStock drugName (S (length l)) entries).
  split.
  - intros w tr. by rewrite exec_bind, Hf.
  - exists entries. split; [done|].
    rewrite (exec_format_pharmacies_length _ (Scenario.world "" []) []
               _ _ _ (Hf _ _)).
    rewrite length_take. simpl length. lia.
Qed.

Lemma exec_sendNotification_of drugName result message w tr :
  (∀ w tr, exec env (build_message drugName result) w tr
           = (w, tr, Returned message)) →
  ∃ w' evs,
    exec env (sendNotificationToSubscribers drugName result) w tr
    = (w', tr ++ EvGetActiveSubscribers (getActiveSubscribers (db w)) :: evs,
       Returned tt)
    ∧ deliveries evs
      = map (fun s => (chatId s, message)) (getActiveSubscribers (db w)).
Proof.
  intros Hb. unfold sendNotificationToSubscribers.
  rewrite exec_bind. simpl exec at 1. cbv beta iota.
  rewrite exec_bind, exec_logger_info.
  destruct (getActiveSubscribers (db w)) as [|s rest] eqn:Hsubs.
  { simpl. by exists (add_log lvl_info (add_log lvl_info w)), []. }
  cbn [length Nat.eqb]. rewrite exec_bind, Hb, exec_bind.
  edestruct (exec_deliver env message (s :: rest))
    as (w' & evs & Heq & Hd & _).
  rewrite Heq. clear Heq. rewrite exec_logger_info.
  exists (add_log lvl_info w'), evs. by rewrite <- app_assoc.
Qed.

Lemma checkDrug_same_registry drugName w tr :
  (∀ tr w, same_registry w (meanwhile env tr w)) →
  db (exec env (checkDrug drugName) w tr).1.1 = db w.
Proof.
  intros Hm.
  apply (respects_exec same_registry env (checkDrug drugName) w tr Hm).
  by apply respects_checkDrug.
Qed.

Lemma check_and_notify_unpresentable drug w tr status data matches :
  source env tr drug = Fulfilled status data →
  match_list data = Some matches →
  Forall (fun p => nullish p = false) (firstn 3 matches) →
  Exists (fun p => presentable p = false) (firstn 3 matches) →
  getActiveSubscribers (db w) ≠ [] →
  (∀ tr w, same_registry w (meanwhile env tr w)) →
  ∃ w',
    exec env (check_and_notify drug) w tr
    = (w', tr ++ [EvSearch drug (Fulfilled status data);
                  EvGetActiveSubscribers (getActiveSubscribers (db w))],
       Thrown TypeError).
Proof.
  intros He Hl Hn Hp Hsome Hm.
  pose proof (checkDrug_same_registry drug w tr Hm) as Hdb.
  destruct (checkDrug_parsed env drug w tr status data matches He Hl Hn)
    as [w1 Hc].
  rewrite Hc in Hdb. simpl in Hdb.
  rewrite (check_and_notify_checked env _ _ _ _ _ _ Hc).
  rewrite exec_sendNotification_unformattable.
  - simpl db. rewrite (Hm _ w1), Hdb, <- app_assoc. by eexists.
  - destruct matches as [|p l]; [by apply Exists_nil in Hp|].
    unfold formattable.
    cbn [isAvailable pharmacyCount pharmacies length Nat.ltb Nat.leb].
    apply not_true_is_false. intros Hall.
    apply Exists_exists in Hp as (x & Hx & Hxp).
    rewrite forallb_forall in Hall.
    apply list_elem_of_In, Hall in Hx. congruence.
  - simpl db. by rewrite (Hm _ w1), Hdb.
Qed.

End notify.





(** ** A run, further *)

Section runs.
Context (env : Env).

(** [run_pass], run: the registry is read, the loop goes over the configured
    items and returns, and the retry is scheduled. *)
Lemma exec_run_pass w tr :
  let w0 := add_log lvl_info (add_log lvl_info (add_log lvl_info w)) in
  let tr0 := tr ++ [EvGetActiveSubscribers (getActiveSubscribers (db w))] in
  ∃ w1 evs,
    exec env (check_each (configured_drugs (DRUGS_TO_CHECK w))) w0 tr0
    = (w1, tr0 ++ evs, Returned tt)
    ∧ searches evs = configured_drugs (DRUGS_TO_CHECK w)
    ∧ exec env run_pass w tr
      = exec env scheduleRetryForErrors (add_log lvl_info w1) (tr0 ++ evs).
Proof.
  intros w0 tr0.
  destruct (check_each_total env (configured_drugs (DRUGS_TO_CHECK w)) w0 tr0)
    as (w1 & evs & Heq & Hs).
  exists w1, evs. split_and!; [done..|].
  unfold run_pass. rewrite exec_bind. simpl exec at 1. cbv beta iota.
  rewrite exec_bind. simpl exec at 1. cbv beta iota.
  do 3 rewrite exec_bind, exec_logger_info.
  fold w0 tr0. rewrite exec_bind, Heq. cbv beta iota.
  by rewrite exec_bind, exec_logger_info.
Qed.

(** A run that starts with the guard clear, run. *)
Lemma exec_checkAllDrugs_idle w tr :
  isChecking w = false →
  let w0 := add_log lvl_info (add_log lvl_info (add_log lvl_info
              (set_isChecking true w))) in
  let tr0 := tr ++ [EvGetActiveSubscribers (getActiveSubscribers (db w))] in
  ∃ w1 evs,
    exec env (check_each (configured_drugs (DRUGS_TO_CHECK w))) w0 tr0
    = (w1, tr0 ++ evs, Returned tt)
    ∧ searches evs = configured_drugs (DRUGS_TO_CHECK w)
    ∧ exec env checkAllDrugs w tr
      = (set_isChecking false
           (exec env scheduleRetryForErrors (add_log lvl_info w1)
              (tr0 ++ evs)).1.1,
         tr0 ++ evs, Returned tt).
Proof.
  intros Hg w0 tr0.
  destruct (exec_run_pass (set_isChecking true w) tr)
    as (w1 & evs & Heq & Hs & Hp).
  exists w1, evs. split_and!; [done..|].
  rewrite exec_checkAllDrugs, Hg, exec_try_finally, Hp.
  rewrite !exec_scheduleRetryForErrors. cbv beta iota.
  by rewrite exec_modify.
Qed.

Lemma checkAllDrugs_total w tr :
  ∃ w' evs,
    exec env checkAllDrugs w tr = (w', tr ++ evs, Returned tt)
    ∧ searches evs
      = (if isChecking w then [] else configured_drugs (DRUGS_TO_CHECK w))
    ∧ isChecking w' = isChecking w.
Proof.
  destruct (isChecking w) eqn:Hg.
  { rewrite exec_checkAllDrugs, Hg. exists (add_log lvl_warn w), [].
    by rewrite app_nil_r. }
  destruct (exec_checkAllDrugs_idle w tr Hg) as (w1 & evs & _ & Hs & ->).
  eexists _, (EvGetActiveSubscribers _ :: evs).
  rewrite <- app_assoc. split_and!; [done| |done].
  by change (searches (?a :: ?l)) with (searches l).
Qed.

End runs.

(** X20: a call of [checkAllDrugs] always returns, whatever the source and
    the transport answer: it never throws.  With the guard clear it queries
    every configured item once, in the configured order; with the guard
    set it queries nothing.  When it returns, the guard is as the call
    found it. *)
Theorem checkAllDrugs_always_returns (env : Env) (w : World)
    (tr : list Event) :
  ∃ w' evs,
    exec env checkAllDrugs w tr = (w', tr ++ evs, Returned tt)
    ∧ searches evs
      = (if isChecking w then [] else configured_drugs (DRUGS_TO_CHECK w))
    ∧ isChecking w' = isChecking w.
Proof. apply checkAllDrugs_total. Qed.

(** ** The steps of the commands *)

Section command_steps.
Context (R : World → World → Prop).
Context (Rlog : ∀ w l, R w (add_log l w)).
Context (Rremove : ∀ w c, R w (set_db (fun d => (removeSubscriber c d).1) w)).
Context (Radd : ∀ w s, R w (set_db (addSubscriber s) w)).

Lemma respects_on_message msg : respects R (on_message msg).
Proof. by apply respects_logger. Qed.

Lemma respects_on_start msg : respects R (on_start msg).
Proof.
  unfold on_start. apply respects_bind; [by apply respects_logger|].
  intros _. destruct (from msg); [|done].
  apply respects_bind; [by simpl|]. intros _.
  apply respects_bind; [by apply respects_logger|]. intros _.
  apply respects_bind; [by simpl|]. intros w.
  apply respects_bind; [|by intros _; apply respects_logger].
  by intros [|e].
Qed.

Lemma respects_on_stop msg : respects R (on_stop msg).
Proof.
  unfold on_stop. apply respects_bind; [by apply respects_logger|].
  intros _. apply respects_bind; [by simpl|]. intros [|].
  - apply respects_bind; [by apply respects_logger|]. intros _.
    by intros [|e].
  - apply respects_bind; [by apply respects_logger|]. intros _.
    by intros [|e].
Qed.

Lemma respects_on_status msg : respects R (on_status msg).
Proof.
  unfold on_status. apply respects_bind; [by simpl|]. intros [|].
  - apply respects_bind; [by apply respects_logger|]. intros _.
    apply respects_bind; [by simpl|]. intros w. by intros [|e].
  - apply respects_bind; [by apply respects_logger|]. intros _.
    by intros [|e].
Qed.

Context (Rclear : ∀ w, R w (set_apiErrorDrugs (fun _ => []) w)).

Lemma respects_retry_callback : respects R retry_callback.
Proof.
  unfold retry_callback. apply respects_bind; [by simpl|]. intros w.
  destruct (0 <? _)%nat; [|done].
  apply respects_bind; [by apply respects_logger|]. intros _.
  apply respects_bind; [by simpl|]. intros _. by apply respects_retry_each.
Qed.

End command_steps.

(** ** The retry timer, further *)

#[local] Instance one_timer_kept_refl : Reflexive one_timer_kept.
Proof. intros w Hw. exact Hw. Qed.

#[local] Instance one_timer_kept_trans : Transitive one_timer_kept.
Proof. unfold one_timer_kept. intros w1 w2 w3 H1 H2. auto. Qed.

(** The timer that a fired handle leaves. *)
Lemma one_timer_filter t w :
  one_timer w → one_timer (set_timers (filter (fun t' => t' ≠ t)) w).
Proof.
  intros [Hnone|(t0 & Hone & Hr)]; unfold one_timer; simpl.
  - left. by rewrite Hnone.
  - rewrite Hone. destruct (decide (t0 = t)) as [->|Hne].
    + left. by rewrite filter_cons_False by (intros ?; done).
    + right. exists t0. by rewrite filter_cons_True.
Qed.

(** [scheduleRetryForErrors] on one timer at most leaves one timer at
    most. *)
Lemma one_timer_scheduleRetryForErrors env w tr :
  one_timer w → one_timer (exec env scheduleRetryForErrors w tr).1.1.
Proof.
  intros Hw. rewrite exec_scheduleRetryForErrors. simpl.
  destruct (0 <? _)%nat; [|done].
  right. exists (nextTimer w). unfold one_timer in *.
  destruct (retryTimer w) as [t|] eqn:Hr; simpl.
  - destruct Hw as [->|(t0 & -> & [= ->])]; [done|].
    by rewrite filter_cons_False by (intros ?; done).
  - by destruct Hw as [->|(t0 & _ & [=])].
Qed.

Lemma timer_fires_one_timer t : respects one_timer_kept (timer_fires t).
Proof.
  unfold timer_fires. apply respects_bind; [by simpl|]. intros w.
  case_decide; [|done].
  apply respects_bind.
  { simpl. split; [|done]. intros w0 Hw0. by apply one_timer_filter. }
  intros _. apply respects_retry_callback; by kept.
Qed.

Lemma checkAllDrugs_one_timer env w tr :
  (∀ tr w, one_timer_kept w (meanwhile env tr w)) →
  one_timer w → one_timer (exec env checkAllDrugs w tr).1.1.
Proof.
  intros Hm Hw. destruct (isChecking w) eqn:Hg.
  { by rewrite exec_checkAllDrugs, Hg. }
  destruct (exec_checkAllDrugs_idle env w tr Hg) as (w1 & evs & Hc & _ & ->).
  cbn [fst]. apply (one_timer_scheduleRetryForErrors env (add_log lvl_info w1)).
  pose proof (respects_exec one_timer_kept env
    (check_each (configured_drugs (DRUGS_TO_CHECK w)))
    (add_log lvl_info (add_log lvl_info (add_log lvl_info
       (set_isChecking true w))))
    (tr ++ [EvGetActiveSubscribers (getActiveSubscribers (db w))]) Hm
    (respects_check_each one_timer_kept ltac:(by kept) ltac:(by kept)
       ltac:(by kept) (configured_drugs (DRUGS_TO_CHECK w)))) as Hk.
  rewrite Hc in Hk. by apply Hk.
Qed.

(** X21: at most one retry timer is pending, and it is the one that
    [retryTimer] holds.  Every task that the event loop starts (a run, the
    callback of a timer, a command) keeps it so, the tasks that run while it
    is suspended keeping it so as well: a run that schedules a retry cancels
    the pending one first. *)
Theorem at_most_one_retry_timer (env : Env) (trigger : Trigger) (w : World)
    (tr : list Event) :
  (∀ tr w, one_timer w → one_timer (meanwhile env tr w)) →
  one_timer w →
  one_timer (exec env (task trigger) w tr).1.1.
Proof.
  intros Hm Hw. destruct trigger as [|t|msg|msg|msg|msg]; simpl task.
  - by apply checkAllDrugs_one_timer.
  - by apply (respects_exec one_timer_kept env _ _ tr Hm
                (timer_fires_one_timer t)).
  - done.
  - apply (respects_exec one_timer_kept env _ _ tr Hm); [|done].
    apply respects_on_start; by kept.
  - apply (respects_exec one_timer_kept env _ _ tr Hm); [|done].
    apply respects_on_stop; by kept.
  - apply (respects_exec one_timer_kept env _ _ tr Hm); [|done].
    apply respects_on_status; by kept.
Qed.

Lemma at_most_one_retry_timer_witness :
  one_timer Scenario.retry_pending
  ∧ one_timer (exec Scenario.alternating (task RunRequested)
                 Scenario.retry_pending []).1.1
  ∧ timers (exec Scenario.alternating (task RunRequested)
              Scenario.retry_pending []).1.1 = [1%nat].
Proof.
  assert (one_timer Scenario.retry_pending) as Hw.
  { right. exists 0%nat. split; reflexivity. }
  split_and!; [exact Hw| |reflexivity].
  apply (at_most_one_retry_timer Scenario.alternating RunRequested).
  - intros tr w H. exact H.
  - exact Hw.
Defined.

(** ** The failed set, further *)

#[local] Instance only_adds_refl drugs : Reflexive (only_adds drugs).
Proof. intros w drug Hd. by left. Qed.

#[local] Instance only_adds_trans drugs : Transitive (only_adds drugs).
Proof.
  intros w1 w2 w3 H1 H2 drug Hd.
  destruct (H2 drug Hd) as [Hd'|Hd']; [by apply H1|by right].
Qed.

Lemma check_each_only_adds (configured drugs : list string) :
  drugs ⊆ configured → respects (only_adds configured) (check_each drugs).
Proof.
  induction drugs as [|drug rest IH]; intros Hsub; [done|].
  cbn [check_each]. apply respects_bind.
  - apply respects_try_catch.
    + apply respects_check_and_notify; intros; intros d Hd; by left.
    + intros e. apply respects_bind.
      { apply respects_logger. intros; intros d Hd; by left. }
      intros _. apply respects_bind.
      { apply respects_logger. intros; intros d Hd; by left. }
      intros _. simpl. split; [|done].
      intros w d [->|Hd]%elem_of_Set_add; [right|by left].
      apply Hsub. by left.
  - intros _. apply IH. intros d Hd. apply Hsub. by right.
Qed.

Lemma checkAllDrugs_only_adds env w tr :
  (∀ tr w, only_adds [] w (meanwhile env tr w)) →
  only_adds (configured_drugs (DRUGS_TO_CHECK w)) w
    (exec env checkAllDrugs w tr).1.1.
Proof.
  intros Hm. destruct (isChecking w) eqn:Hg.
  { rewrite exec_checkAllDrugs, Hg. intros d Hd. by left. }
  destruct (exec_checkAllDrugs_idle env w tr Hg) as (w1 & evs & Hc & _ & ->).
  set (drugs := configured_drugs (DRUGS_TO_CHECK w)) in *.
  assert (∀ tr w, only_adds drugs w (meanwhile env tr w)) as Hm'.
  { intros tr' w' d Hd. destruct (Hm tr' w' d Hd) as [?|[]%elem_of_nil].
    by left. }
  pose proof (respects_exec (only_adds drugs) env (check_each drugs)
    (add_log lvl_info (add_log lvl_info (add_log lvl_info
       (set_isChecking true w))))
    (tr ++ [EvGetActiveSubscribers (getActiveSubscribers (db w))]) Hm'
    (check_each_only_adds drugs drugs ltac:(done))) as Hk.
  rewrite Hc in Hk. rewrite exec_scheduleRetryForErrors.
  intros d Hd. apply (Hk d). revert Hd. cbn [fst].
  destruct (0 <? _)%nat; [|done]. simpl. by destruct (retryTimer w1).
Qed.

(** X22: a run puts no name into the failed set but those of the configured
    items, the tasks that run while it is suspended adding none: after it,
    every name of the failed set was there before or is configured. *)
Theorem run_adds_only_configured_items (env : Env) (w : World)
    (tr : list Event) :
  (∀ tr w drug, drug ∈ apiErrorDrugs (meanwhile env tr w) →
                drug ∈ apiErrorDrugs w) →
  ∀ drug,
    drug ∈ apiErrorDrugs (exec env checkAllDrugs w tr).1.1 →
    drug ∈ apiErrorDrugs w ∨ drug ∈ configured_drugs (DRUGS_TO_CHECK w).
Proof.
  intros Hm. apply checkAllDrugs_only_adds.
  intros tr' w' d Hd. left. by eapply Hm.
Qed.

Lemma run_adds_only_configured_items_witness :
  let w := Scenario.world "A,B" [] in
  apiErrorDrugs (exec Scenario.alternating checkAllDrugs w []).1.1 = ["A"]
  ∧ ("A" ∈ apiErrorDrugs w ∨ "A" ∈ configured_drugs (DRUGS_TO_CHECK w)).
Proof.
  intros w. split; [reflexivity|].
  apply (run_adds_only_configured_items Scenario.alternating w []).
  - intros tr w0 drug H. exact H.
  - apply list_elem_of_here.
Defined.

(** ** A run in which nothing fails *)

Section healthy.
Context (env : Env).
Context (Hsource : ∀ tr drug, shown_well (source env tr drug)).
Context (Hm : ∀ tr w, same_engine w (meanwhile env tr w)).

Lemma formattable_checked (matches : list JsValue) :
  Forall (fun p => presentable p = true) (firstn 3 matches) →
  formattable {| isAvailable := (0 <? length matches)%nat;
                 pharmacyCount := Some (length matches);
                 pharmacies := Some (firstn 3 matches) |} = true.
Proof.
  intros Hp. unfold formattable.
  cbn [isAvailable pharmacyCount pharmacies].
  destruct matches as [|p l]; [done|].
  cbn [length Nat.ltb Nat.leb].
  apply forallb_forall. intros x Hx%list_elem_of_In.
  by eapply Forall_forall in Hp.
Qed.

Lemma check_and_notify_returns drug w tr :
  ∃ w' tr', exec env (check_and_notify drug) w tr = (w', tr', Returned tt).
Proof.
  destruct (Hsource tr drug) as (status & data & matches & He & Hl & Hp).
  assert (Forall (fun p => nullish p = false) (firstn 3 matches)) as Hn.
  { eapply Forall_impl; [exact Hp|]. apply presentable_not_nullish. }
  destruct (checkDrug_parsed env drug w tr status data matches He Hl Hn)
    as [w1 Hc].
  rewrite (check_and_notify_checked env _ _ _ _ _ _ Hc).
  edestruct (exec_sendNotification env drug) as (w2 & m & evs & -> & _);
    [by apply formattable_checked|].
  by eexists _, _.
Qed.

Lemma check_each_healthy drugs w tr :
  same_engine w (exec env (check_each drugs) w tr).1.1.
Proof.
  revert w tr. induction drugs as [|drug rest IH]; intros w tr; [done|].
  rewrite check_each_cons.
  pose proof (respects_exec same_engine env (check_and_notify drug) w tr Hm
                (check_and_notify_same_engine drug)) as Hk.
  destruct (check_and_notify_returns drug w tr) as (w1 & tr1 & Hc).
  rewrite Hc in *. simpl in Hk. etrans; [exact Hk|apply IH].
Qed.

End healthy.



(** ** The commands *)

Section commands.
Context (env : Env).

Lemma exec_bot_sendMessage c m w tr :
  exec env (bot_sendMessage c m) w tr
  = (meanwhile env (tr ++ [EvSendMessage c m (transport env tr c m)]) w,
     tr ++ [EvSendMessage c m (transport env tr c m)],
     match transport env tr c m with
     | Sent => Returned tt
     | SendFailed e => Thrown e
     end).
Proof. simpl. by destruct (transport env tr c m). Qed.

Lemma exec_on_start msg user w tr :
  from msg = Some user →
  let subscriber :=
    {| chatId := chat msg; username := User.username user;
       firstName := Some (User.first_name user);
       lastName := User.last_name user |} in
  let welcome := Welcome (configured_drugs (DRUGS_TO_CHECK w)) in
  let tr1 := tr ++ [EvAddSubscriber subscriber] in
  let tr2 := tr1 ++ [EvSendMessage (chat msg) welcome
                       (transport env tr1 (chat msg) welcome)] in
  ∃ w',
    exec env (on_start msg) w tr
    = (w', tr2,
       match transport env tr1 (chat msg) welcome with
       | Sent => Returned tt
       | SendFailed e => Thrown e
       end)
    ∧ db w'
      = db (meanwhile env tr2
              (add_log lvl_info
                 (set_db (addSubscriber subscriber) (add_log lvl_info w)))).
Proof.
  intros Hu subscriber welcome tr1 tr2. unfold on_start.
  rewrite exec_bind, exec_logger_info, Hu.
  rewrite exec_bind. simpl exec at 1. cbv beta iota. fold subscriber tr1.
  rewrite exec_bind, exec_logger_info.
  rewrite exec_bind. simpl exec at 1. cbv beta iota.
  rewrite exec_bind, exec_bot_sendMessage.
  change (DRUGS_TO_CHECK (add_log _ (set_db _ (add_log _ w))))
    with (DRUGS_TO_CHECK w).
  fold welcome. fold tr2.
  destruct (transport env tr1 (chat msg) welcome); eexists; split; done.
Qed.

Lemma exec_on_stop msg w tr :
  let changed := (removeSubscriber (chat msg) (db w)).2 in
  let reply := if changed then Goodbye else WasNotSubscribed in
  let tr1 := tr ++ [EvRemoveSubscriber (chat msg) changed] in
  let tr2 := tr1 ++ [EvSendMessage (chat msg) reply
                       (transport env tr1 (chat msg) reply)] in
  exec env (on_stop msg) w tr
  = (meanwhile env tr2
       (add_log (if changed then lvl_info else lvl_warn)
          (set_db (fun d => (removeSubscriber (chat msg) d).1)
             (add_log lvl_info w))),
     tr2,
     match transport env tr1 (chat msg) reply with
     | Sent => Returned tt
     | SendFailed e => Thrown e
     end).
Proof.
  intros changed reply tr1 tr2. unfold on_stop.
  rewrite exec_bind, exec_logger_info.
  rewrite exec_bind. simpl exec at 1. cbv beta iota.
  change (db (add_log lvl_info w)) with (db w). fold changed. fold tr1.
  subst reply tr2. destruct changed.
  - by rewrite exec_bind, exec_logger_info, exec_bot_sendMessage.
  - by rewrite exec_bind, exec_logger_warn, exec_bot_sendMessage.
Qed.

Lemma exec_on_status msg w tr :
  let subscribed := isSubscribed (chat msg) (db w) in
  let reply :=
    if subscribed then StatusSubscribed (configured_drugs (DRUGS_TO_CHECK w))
    else StatusNotSubscribed in
  let tr1 := tr ++ [EvIsSubscribed (chat msg) subscribed] in
  let tr2 := tr1 ++ [EvSendMessage (chat msg) reply
                       (transport env tr1 (chat msg) reply)] in
  exec env (on_status msg) w tr
  = (meanwhile env tr2 (add_log lvl_info w), tr2,
     match transport env tr1 (chat msg) reply with
     | Sent => Returned tt
     | SendFailed e => Thrown e
     end).
Proof.
  intros subscribed reply tr1 tr2. unfold on_status.
  rewrite exec_bind. simpl exec at 1. cbv beta iota.
  fold subscribed. fold tr1.
  rewrite exec_bind, exec_logger_info.
  subst reply tr2. destruct subscribed.
  - rewrite exec_bind. simpl exec at 1. cbv beta iota.
    by rewrite exec_bot_sendMessage.
  - by rewrite exec_bot_sendMessage.
Qed.

End commands.

(** X24: [/start] without a sender only logs.  With a sender it stores the
    subscriber under the chat of the message and then sends the welcome
    message, which names the configured items, to that chat; these are its
    only calls.  The chat is subscribed when the handler ends, whether the
    message was delivered or not, the other tasks leaving the registry
    alone meanwhile; when the delivery fails, the handler throws. *)
Theorem start_subscribes_then_welcomes (env : Env) (msg : Update)
    (w : World) (tr : list Event) :
  match from msg with
  | None => exec env (on_start msg) w tr = (add_log lvl_info w, tr, Returned tt)
  | Some user =>
      let subscriber :=
        {| chatId := chat msg; username := User.username user;
           firstName := Some (User.first_name user);
           lastName := User.last_name user |} in
      let welcome := Welcome (configured_drugs (DRUGS_TO_CHECK w)) in
      let tr1 := tr ++ [EvAddSubscriber subscriber] in
      ∃ w',
        exec env (on_start msg) w tr
        = (w', tr1 ++ [EvSendMessage (chat msg) welcome
                         (transport env tr1 (chat msg) welcome)],
           match transport env tr1 (chat msg) welcome with
           | Sent => Returned tt
           | SendFailed e => Thrown e
           end)
        ∧ ((∀ tr w, same_registry w (meanwhile env tr w)) →
           db w' = addSubscriber subscriber (db w)
           ∧ isSubscribed (chat msg) (db w') = true)
  end.
Proof.
  destruct (from msg) as [user|] eqn:Hu.
  - intros subscriber welcome tr1.
    destruct (exec_on_start env msg user w tr Hu) as (w' & He & Hdb).
    exists w'. split; [exact He|]. intros Hm. rewrite Hdb, Hm. simpl db.
    split; [done|]. apply isSubscribed_spec. eexists.
    split; [apply (addSubscriber_row subscriber)|done].
  - unfold on_start. by rewrite exec_bind, exec_logger_info, Hu.
Qed.

(** X25: [/stop] deactivates the chat of the message and then sends one
    message to it: the goodbye when the registry held a row for the chat,
    active or not, and the notice that it was not subscribed otherwise;
    these are its only calls.  When the handler ends the chat is not
    subscribed and every other chat is as it was, the other tasks leaving
    the registry alone meanwhile. *)
Theorem stop_unsubscribes_then_replies (env : Env) (msg : Update)
    (w : World) (tr : list Event) :
  let changed := (removeSubscriber (chat msg) (db w)).2 in
  let reply := if changed then Goodbye else WasNotSubscribed in
  let tr1 := tr ++ [EvRemoveSubscriber (chat msg) changed] in
  ∃ w',
    exec env (on_stop msg) w tr
    = (w', tr1 ++ [EvSendMessage (chat msg) reply
                     (transport env tr1 (chat msg) reply)],
       match transport env tr1 (chat msg) reply with
       | Sent => Returned tt
       | SendFailed e => Thrown e
       end)
    ∧ (reply = Goodbye ↔ is_Some (subscribers (db w) !! chat msg))
    ∧ ((∀ tr w, same_registry w (meanwhile env tr w)) →
       ∀ c, isSubscribed c (db w')
            = if decide (c = chat msg) then false else isSubscribed c (db w)).
Proof.
  intros changed reply tr1. rewrite exec_on_stop. fold changed reply tr1.
  eexists. split; [done|]. split.
  - rewrite <- removeSubscriber_result. fold changed. subst reply.
    by destruct changed.
  - intros Hm c. rewrite Hm. simpl db. apply isSubscribed_removeSubscriber.
Qed.

(** X26: [/status] asks the registry about the chat of the message and
    sends one message to it: that it is subscribed, with the configured
    items, exactly when the registry says so; these are its only calls, and
    none of its steps changes the registry. *)
Theorem status_reports_the_registry (env : Env) (msg : Update) (w : World)
    (tr : list Event) :
  let subscribed := isSubscribed (chat msg) (db w) in
  let reply :=
    if subscribed then StatusSubscribed (configured_drugs (DRUGS_TO_CHECK w))
    else StatusNotSubscribed in
  let tr1 := tr ++ [EvIsSubscribed (chat msg) subscribed] in
  (exec env (on_status msg) w tr).1.2
  = tr1 ++ [EvSendMessage (chat msg) reply
              (transport env tr1 (chat msg) reply)]
  ∧ (exec env (on_status msg) w tr).2
    = match transport env tr1 (chat msg) reply with
      | Sent => Returned tt
      | SendFailed e => Thrown e
      end
  ∧ respects same_registry (on_status msg).
Proof.
  intros subscribed reply tr1. rewrite exec_on_status.
  split_and!; [done..|].
  unfold on_status. apply respects_bind; [by simpl|]. intros [|].
  - apply respects_bind; [by apply respects_logger|]. intros _.
    apply respects_bind; [by simpl|]. intros w0. by intros [|e].
  - apply respects_bind; [by apply respects_logger|]. intros _.
    by intros [|e].
Qed.

Lemma emits_logger P l : emits P (logger l).
Proof. done. Qed.

Lemma emits_commands msg :
  emits not_search (on_message msg)
  ∧ emits not_search (on_start msg)
  ∧ emits not_search (on_stop msg)
  ∧ emits not_search (on_status msg).
Proof.
  split_and!.
  - done.
  - unfold on_start. apply emits_bind; [done|]. intros _.
    destruct (from msg); [|done].
    apply emits_bind; [done|]. intros _.
    apply emits_bind; [done|]. intros _.
    apply emits_bind; [done|]. intros w.
    apply emits_bind; [|done]. by intros [|e].
  - unfold on_stop. apply emits_bind; [done|]. intros _.
    apply emits_bind; [done|]. intros [|].
    + apply emits_bind; [done|]. intros _. by intros [|e].
    + apply emits_bind; [done|]. intros _. by intros [|e].
  - unfold on_status. apply emits_bind; [done|]. intros [|].
    + apply emits_bind; [done|]. intros _.
      apply emits_bind; [done|]. intros w. by intros [|e].
    + apply emits_bind; [done|]. intros _. by intros [|e].
Qed.

(** X27: the handlers of messages and of the three commands leave the
    engine alone: none of their steps changes the configured items, the
    failed set, the retry timer or the run guard, and none of their calls is
    a query to the availability source. *)
Theorem commands_leave_the_engine_alone (msg : Update) :
  (respects same_engine (on_message msg)
   ∧ respects same_engine (on_start msg)
   ∧ respects same_engine (on_stop msg)
   ∧ respects same_engine (on_status msg))
  ∧ (emits not_search (on_message msg)
     ∧ emits not_search (on_start msg)
     ∧ emits not_search (on_stop msg)
     ∧ emits not_search (on_status msg)).
Proof.
  split; [|apply emits_commands]. split_and!.
  - by apply respects_on_message.
  - by apply respects_on_start.
  - by apply respects_on_stop.
  - by apply respects_on_status.
Qed.

(** ** The start-up and the cron job *)

Lemma exec_startup env check_now w tr :
  ∃ w0 w1,
    same_engine w w0 ∧ db w0 = db w
    ∧ exec env (startup check_now) w tr
      = (w1, (exec env checkAllDrugs w0 tr).1.2, Returned tt).
Proof.
  unfold startup. destruct check_now.
  - exists (add_log lvl_info w). rewrite exec_bind, exec_logger_info.
    rewrite exec_try_catch, exec_bind.
    destruct (checkAllDrugs_total env (add_log lvl_info w) tr)
      as (w' & evs & -> & _).
    rewrite exec_logger_info. eexists.
    split; [by hnf|]. split; [done|]. reflexivity.
  - rewrite exec_bind. simpl exec at 1. cbv beta iota.
    do 8 rewrite exec_bind, exec_logger_info.
    set (w0 := add_log lvl_info (add_log lvl_info (add_log lvl_info
                 (add_log lvl_info (add_log lvl_info (add_log lvl_info
                    (add_log lvl_info (add_log lvl_info w)))))))).
    destruct (checkAllDrugs_total env w0 tr) as (w' & evs & He & _).
    exists w0, w'. rewrite He. split; [by hnf|]. split; [done|]. reflexivity.
Qed.

(** X11: the start-up, with [--check-now] or without it, and the callback
    of the cron job each make one call of [checkAllDrugs] and nothing else
    but log lines: they return, and with the guard clear their queries are
    those of the configured items, once each and in order. *)
Theorem startup_and_cron_run_once (env : Env) (check_now : bool) (w : World)
    (tr : list Event) :
  let configured :=
    if isChecking w then [] else configured_drugs (DRUGS_TO_CHECK w) in
  (∃ w' evs,
     exec env (startup check_now) w tr = (w', tr ++ evs, Returned tt)
     ∧ searches evs = configured)
  ∧ (∃ w' evs,
       exec env cron_tick w tr = (w', tr ++ evs, Returned tt)
       ∧ searches evs = configured).
Proof.
  intros configured. split.
  - destruct (exec_startup env check_now w tr)
      as (w0 & w1 & (Hd & _ & _ & Hg & _) & _ & ->).
    destruct (checkAllDrugs_total env w0 tr) as (w' & evs & -> & Hs & _).
    exists w1, evs. split; [done|]. subst configured.
    by rewrite Hs, Hg, Hd.
  - unfold cron_tick. rewrite exec_bind, exec_logger_info.
    destruct (checkAllDrugs_total env (add_log lvl_info w) tr)
      as (w' & evs & -> & Hs & _).
    by exists w', evs.
Qed.

(** ** The guard, witnessed *)


Lemma guard_stays_set_witness :
  let w := set_isChecking true (Scenario.world "A,B" [1]) in
  isChecking (exec Scenario.alternating (task (TimerElapsed 0)) w []).1.1
  = true
  ∧ isChecking (exec Scenario.alternating (task (StopReceived Scenario.stop_1))
                  w []).1.1 = true.
Proof.
  intros w. split.
  - apply (guard_stays_set Scenario.alternating (TimerElapsed 0) w []).
    + intros tr w0. reflexivity.
    + reflexivity.
  - apply (guard_stays_set Scenario.alternating
             (StopReceived Scenario.stop_1) w []).
    + intros tr w0. reflexivity.
    + reflexivity.
Defined.
